(** * Deal-state watchers of the integration-test kit ([itests/kit/deals.go])

    A shallow embedding of the [DealHarness] wait helpers: the three
    [DealStateCheck] factories ([DealState], [DealSectorState], [DealOn]),
    the polling loop [WaitDealStates] with its sector correlation scan,
    [WaitDealSealed] with [StartSealingWaiting], and the subscription loop
    [WaitDealPublished].

    The harness talks to a full node and a miner over their RPC interfaces
    and to the Go runtime (map iteration order, [time.Sleep], [select]).
    All of that is outside the file; it is modelled as an explicit world
    [W] threaded through every call, with the interface collected in the
    record [Env].  Every call may change the world, so deals and sectors
    can move between any two queries.

    - [t.Fatal] and a failing [require.NoError] stop the calling goroutine;
      that is the [FailNow] outcome, which carries what was reported.
    - [t.Log] lines and sleeps are collected, in order, as the events of a
      run.
    - The two unbounded loops take fuel, one unit per iteration; a run
      that is out of fuel, or blocked in its select, has outcome
      [NoReturn].
    - The [todo] map is a [gset]; the order in which [range] visits its
      keys is the runtime's choice ([mapRange]).
    - [deals []*cid.Cid] is a list of cids. *)

From Stdlib Require Import ZArith NArith.
From stdpp Require Import gmap strings list.

Local Open Scope string_scope.
Local Open Scope list_scope.
#[local] Set Warnings "-clear-no-such-hyp".

(** ** Imported packages: the types and constants the harness uses *)

Module time.
(** [type Duration int64], counted in nanoseconds. *)
Definition Duration := Z.
Definition Nanosecond : Duration := 1%Z.
Definition Microsecond : Duration := (1000 * Nanosecond)%Z.
Definition Millisecond : Duration := (1000 * Microsecond)%Z.
Definition Second : Duration := (1000 * Millisecond)%Z.
End time.

Module cid.
(** [type Cid struct{ str string }]; [Equals] compares the two values. *)
Definition Cid := string.
Definition Equals (c o : Cid) : bool := bool_decide (c = o).
End cid.

Module abi.
Definition SectorNumber := N.
Definition DealID := N.
End abi.

Module storagemarket.
(** The deal status enumeration of go-fil-markets. *)
Inductive StorageDealStatus : Set :=
| StorageDealUnknown
| StorageDealProposalNotFound
| StorageDealProposalRejected
| StorageDealProposalAccepted
| StorageDealStaged
| StorageDealSealing
| StorageDealFinalizing
| StorageDealActive
| StorageDealExpired
| StorageDealSlashed
| StorageDealRejecting
| StorageDealFailing
| StorageDealFundsReserved
| StorageDealCheckForAcceptance
| StorageDealValidating
| StorageDealAcceptWait
| StorageDealStartDataTransfer
| StorageDealTransferring
| StorageDealWaitingForData
| StorageDealVerifyData
| StorageDealReserveProviderFunds
| StorageDealReserveClientFunds
| StorageDealProviderFunding
| StorageDealClientFunding
| StorageDealPublish
| StorageDealPublishing
| StorageDealError
| StorageDealProviderTransferAwaitRestart
| StorageDealClientTransferRestart
| StorageDealAwaitingPreCommit.

#[global] Instance StorageDealStatus_eq_dec : EqDecision StorageDealStatus.
Proof. solve_decision. Defined.

(** [MinerDeal]: the fields the harness reads.  The zero value is
    [zeroMinerDeal]. *)
Record MinerDeal : Set := mkMinerDeal {
  md_ProposalCid : cid.Cid;
  md_State : StorageDealStatus;
  md_Message : string;
  md_DealID : abi.DealID
}.

Definition zeroMinerDeal : MinerDeal :=
  mkMinerDeal "" StorageDealUnknown "" 0%N.
End storagemarket.

Module sealing.
(** [type SectorState string]. *)
Definition SectorState := string.
Definition WaitDeals : SectorState := "WaitDeals".
End sealing.

Module api.
Definition SectorState := string.

(** [api.DealInfo]: the fields the harness reads. *)
Record DealInfo : Set := mkDealInfo {
  ProposalCid : cid.Cid;
  State : storagemarket.StorageDealStatus;
  Message : string;
  PieceCID : cid.Cid;
  DealID : abi.DealID
}.

(** [api.SectorInfo]: the fields the harness reads. *)
Record SectorInfo : Set := mkSectorInfo {
  SectorID : abi.SectorNumber;
  si_State : SectorState;
  Deals : list abi.DealID
}.
End api.

Import storagemarket.

(** ** Outcomes, the test log and the harness monad *)

(** How a helper can stop the test: [t.Fatal(args...)] or a failed
    [require.NoError(t, err)]. *)
Inductive Failure : Set :=
| Fatal (args : list string)
| NoErrorFailed (err : string).

(** What the harness writes with [t.Log] / [t.Logf], and its sleeps. *)
Inductive Event : Set :=
| LogWaitComplete (di : api.DealInfo)
| LogDealState (id : abi.DealID) (client provider : StorageDealStatus)
| LogComplete (di : MinerDeal)
| LogState (st : StorageDealStatus)
| LogSectorState (st : api.SectorState)
| Sleep (d : time.Duration).

(** [Ret a]: the call returned [a].  [FailNow f]: the goroutine was stopped
    by [t.FailNow].  [NoReturn]: the call has not returned (it is blocked
    in a receive, or the loop is still running when the fuel is spent). *)
Inductive Outcome (A : Type) : Type :=
| Ret (a : A)
| FailNow (f : Failure)
| NoReturn.
Arguments Ret {A} a.
Arguments FailNow {A} f.
Arguments NoReturn {A}.

Record Res (W A : Type) : Type := mkRes {
  outcome : Outcome A;
  world : W;
  events : list Event
}.
Arguments mkRes {W A} _ _ _.
Arguments outcome {W A} _.
Arguments world {W A} _.
Arguments events {W A} _.

Definition M (W A : Type) : Type := W → Res W A.

Definition ret {W A} (a : A) : M W A := λ w, mkRes (Ret a) w [].

Definition bind {W A B} (m : M W A) (k : A → M W B) : M W B := λ w,
  let r := m w in
  match outcome r with
  | Ret a =>
      let r' := k a (world r) in
      mkRes (outcome r') (world r') (events r ++ events r')
  | FailNow f => mkRes (FailNow f) (world r) (events r)
  | NoReturn => mkRes NoReturn (world r) (events r)
  end.

Declare Scope harness_scope.
Delimit Scope harness_scope with harness.
Notation "x <- m ;; k" := (bind m (λ x, k))
  (at level 100, m at next level, right associativity) : harness_scope.
Notation "m ;;; k" := (bind m (λ _, k))
  (at level 100, right associativity) : harness_scope.
Local Open Scope harness_scope.

(** Replies of the RPC interface: Go's [(value, err)] pairs. *)
Inductive Reply (A : Type) : Type :=
| Ok (a : A)
| Err (e : string).
Arguments Ok {A} a.
Arguments Err {A} e.

Module context.
(** [context.Context], as a handle; what has become of a context is part
    of the world. *)
Definition Context := nat.
End context.

Definition Chan := nat.

(** What one [select] over [ctx.Done()] and the update channel yields. *)
Inductive SelectCase : Set :=
| CaseDone
| CaseRecv (di : MinerDeal).

(** The collaborators and the runtime, as functions of the world. *)
Record Env (W : Type) : Type := mkEnv {
  ClientGetDealInfo : context.Context → cid.Cid → W → Reply api.DealInfo * W;
  MarketListIncompleteDeals : context.Context → W → Reply (list MinerDeal) * W;
  SectorsList : context.Context → W → Reply (list abi.SectorNumber) * W;
  SectorsStatus :
    context.Context → abi.SectorNumber → bool → W → Reply api.SectorInfo * W;
  MarketGetDealUpdates : context.Context → W → Reply Chan * W;
  SectorStartSealing : context.Context → abi.SectorNumber → W → Reply unit * W;
  FlushSealingBatches : context.Context → W → W;
  (** [context.WithCancel] and the cancel function it returns *)
  context_WithCancel : context.Context → W → context.Context * W;
  context_cancel : context.Context → W → W;
  (** [select { case <-ctx.Done(): ... case di := <-updates: ... }];
      [None] when neither case ever becomes ready *)
  select_Done_recv : context.Context → Chan → W → option SelectCase * W;
  (** [time.Sleep] *)
  time_Sleep : time.Duration → W → W;
  (** the order in which [for deal := range todo] visits the keys *)
  mapRange : gset cid.Cid → W → list cid.Cid
}.
Arguments ClientGetDealInfo {W} _ _ _ _.
Arguments MarketListIncompleteDeals {W} _ _ _.
Arguments SectorsList {W} _ _ _.
Arguments SectorsStatus {W} _ _ _ _ _.
Arguments MarketGetDealUpdates {W} _ _ _.
Arguments SectorStartSealing {W} _ _ _ _.
Arguments FlushSealingBatches {W} _ _ _.
Arguments context_WithCancel {W} _ _ _.
Arguments context_cancel {W} _ _ _.
Arguments select_Done_recv {W} _ _ _ _.
Arguments time_Sleep {W} _ _ _.
Arguments mapRange {W} _ _ _.

Section Harness.
Context {W : Type}.
Variable env : Env W.

(** An RPC call: the reply, and the world after it. *)
Definition call {A} (q : W → Reply A * W) : M W (Reply A) := λ w,
  let (r, w') := q w in mkRes (Ret r) w' [].

(** [require.NoError(dh.t, err)] on the reply just received. *)
Definition require_NoError {A} (r : Reply A) : M W A :=
  match r with
  | Ok a => ret a
  | Err e => λ w, mkRes (FailNow (NoErrorFailed e)) w []
  end.

Definition t_Fatal (args : list string) : M W unit := λ w,
  mkRes (FailNow (Fatal args)) w [].

Definition t_Log (e : Event) : M W unit := λ w, mkRes (Ret tt) w [e].

Definition sleep (d : time.Duration) : M W unit := λ w,
  mkRes (Ret tt) (time_Sleep env d w) [Sleep d].

Definition noReturn {A} : M W A := λ w, mkRes NoReturn w [].

(** [type DealStateCheck func(ctx, di *api.DealInfo, sn abi.SectorNumber) bool] *)
Definition DealStateCheck : Type :=
  context.Context → api.DealInfo → abi.SectorNumber → M W bool.

(** *** DealState *)

(** The [for _, state := range expect] loop: did some element equal the
    deal's state? *)
Fixpoint DealState_range (st : StorageDealStatus)
    (expect : list StorageDealStatus) : bool :=
  match expect with
  | [] => false
  | state :: expect' =>
      if decide (st = state) then true else DealState_range st expect'
  end.

Definition DealState (expect : list StorageDealStatus) : DealStateCheck :=
  λ ctx di sn,
    if DealState_range (api.State di) expect then ret true
    else
      match api.State di with
      | StorageDealProposalRejected => t_Fatal ["deal rejected"]
      | StorageDealFailing => t_Fatal ["deal failed"]
      | StorageDealError => t_Fatal ["deal errored"; api.Message di]
      | _ => ret tt
      end ;;;
      ret false.

(** *** DealSectorState *)

Definition DealSectorState (expect : sealing.SectorState) : DealStateCheck :=
  λ ctx di sn,
    if (sn =? 0)%N then ret false
    else
      r <- call (SectorsStatus env ctx sn false) ;;
      si <- require_NoError r ;;
      ret (bool_decide (api.si_State si = expect)).

(** *** DealOn *)

(** The [for _, state := range state] loop with its [break]. *)
Fixpoint DealOn_range (cb : M W unit) (st : StorageDealStatus)
    (state : list StorageDealStatus) : M W unit :=
  match state with
  | [] => ret tt
  | state0 :: state' =>
      if decide (st = state0) then cb
      else DealOn_range cb st state'
  end.

Definition DealOn (cb : M W unit) (state : list StorageDealStatus)
    : DealStateCheck :=
  λ ctx di sn,
    DealOn_range cb (api.State di) state ;;;
    ret true.

(** *** WaitDealStates *)

(** [for _, dealId := range si.Deals]: is the deal in this sector? *)
Fixpoint dealsRange (deals : list abi.DealID) (id : abi.DealID) : bool :=
  match deals with
  | [] => false
  | dealId :: deals' =>
      if (dealId =? id)%N then true else dealsRange deals' id
  end.

(** The labelled loop [sloop]; [ms] is the value the variable holds when
    the loop is entered. *)
Fixpoint sloop (ctx : context.Context) (id : abi.DealID)
    (sl : list abi.SectorNumber) (ms : abi.SectorNumber)
    : M W abi.SectorNumber :=
  match sl with
  | [] => ret ms
  | s :: sl' =>
      r <- call (SectorsStatus env ctx s false) ;;
      si <- require_NoError r ;;
      if dealsRange (api.Deals si) id then ret s
      else sloop ctx id sl' ms
  end.

(** [for _, check := range stateChecks]: the value of [done]. *)
Fixpoint checksRange (ctx : context.Context) (di : api.DealInfo)
    (ms : abi.SectorNumber) (stateChecks : list DealStateCheck)
    : M W bool :=
  match stateChecks with
  | [] => ret true
  | check :: stateChecks' =>
      b <- check ctx di ms ;;
      if negb b then ret false
      else checksRange ctx di ms stateChecks'
  end.

(** [for _, md := range mds]: the provider-side record of the deal. *)
Fixpoint mdsRange (mds : list MinerDeal) (id : abi.DealID) : MinerDeal :=
  match mds with
  | [] => zeroMinerDeal
  | md :: mds' =>
      if (md_DealID md =? id)%N then md else mdsRange mds' id
  end.

(** The body of [for deal := range todo]; returns the map after it. *)
Definition rangeBody (ctx : context.Context) (stateChecks : list DealStateCheck)
    (todo : gset cid.Cid) (deal : cid.Cid) : M W (gset cid.Cid) :=
  r <- call (ClientGetDealInfo env ctx deal) ;;
  di <- require_NoError r ;;
  r <- call (MarketListIncompleteDeals env ctx) ;;
  mds <- require_NoError r ;;
  r <- call (SectorsList env ctx) ;;
  sl <- require_NoError r ;;
  ms <- sloop ctx (api.DealID di) sl 0%N ;;
  done <- checksRange ctx di ms stateChecks ;;
  todo' <- (if done : bool
           then t_Log (LogWaitComplete di) ;;; ret (todo ∖ {[deal]})
           else ret todo) ;;
  let minerDeal := mdsRange mds (api.DealID di) in
  t_Log (LogDealState (api.DealID di) (api.State di) (md_State minerDeal)) ;;;
  ret todo'.

(** One [for deal := range todo] over the keys in the order [keys]. *)
Fixpoint rangeTodo (ctx : context.Context) (stateChecks : list DealStateCheck)
    (keys : list cid.Cid) (todo : gset cid.Cid) : M W (gset cid.Cid) :=
  match keys with
  | [] => ret todo
  | deal :: keys' =>
      todo' <- rangeBody ctx stateChecks todo deal ;;
      rangeTodo ctx stateChecks keys' todo'
  end.

(** [for len(todo) > 0 { ...; time.Sleep(time.Second / 2) }], with one
    unit of fuel per iteration. *)
Fixpoint waitLoop (fuel : nat) (ctx : context.Context)
    (stateChecks : list DealStateCheck) (todo : gset cid.Cid) : M W unit :=
  if decide (0 < size todo)%nat then
    match fuel with
    | O => noReturn
    | S fuel' =>
        todo' <- (λ w, rangeTodo ctx stateChecks (mapRange env todo w) todo w) ;;
        sleep (time.Second `quot` 2)%Z ;;;
        waitLoop fuel' ctx stateChecks todo'
    end
  else ret tt.

Definition WaitDealStates (fuel : nat) (ctx : context.Context)
    (deals : list cid.Cid) (stateChecks : list DealStateCheck) : M W unit :=
  let todo := foldl (λ todo deal, {[deal]} ∪ todo) (∅ : gset cid.Cid) deals in
  waitLoop fuel ctx stateChecks todo.

(** *** StartSealingWaiting *)

(** [for _, snum := range snums]. *)
Fixpoint snumsRange (ctx : context.Context) (snums : list abi.SectorNumber)
    : M W unit :=
  match snums with
  | [] => ret tt
  | snum :: snums' =>
      r <- call (SectorsStatus env ctx snum false) ;;
      si <- require_NoError r ;;
      t_Log (LogSectorState (api.si_State si)) ;;;
      (if bool_decide (api.si_State si = sealing.WaitDeals)
       then r <- call (SectorStartSealing env ctx snum) ;;
            require_NoError r
       else ret tt) ;;;
      (λ w, mkRes (Ret tt) (FlushSealingBatches env ctx w) []) ;;;
      snumsRange ctx snums'
  end.

Definition StartSealingWaiting (ctx : context.Context) : M W unit :=
  r <- call (SectorsList env ctx) ;;
  snums <- require_NoError r ;;
  snumsRange ctx snums.

(** *** WaitDealSealed *)

Definition WaitDealSealed (fuel : nat) (ctx : context.Context) (deal : cid.Cid)
    (noseal noSealStart : bool) : M W unit :=
  (if noseal
   then WaitDealStates fuel ctx [deal]
          [DealState [StorageDealAwaitingPreCommit; StorageDealSealing;
                      StorageDealActive]]
   else ret tt) ;;;
  let checks : list DealStateCheck := [] in
  let checks :=
    if noSealStart
    then checks ++ [DealOn (StartSealingWaiting ctx)
                      [StorageDealAwaitingPreCommit; StorageDealSealing]]
    else checks in
  let checks := checks ++ [DealState [StorageDealActive]] in
  WaitDealStates fuel ctx [deal] checks.

(** *** WaitDealPublished *)

(** [defer f()]: [f] runs when the function returns or is stopped. *)
Definition defer {A} (f : W → W) (m : M W A) : M W A := λ w,
  let r := m w in
  match outcome r with
  | NoReturn => r
  | _ => mkRes (outcome r) (f (world r)) (events r)
  end.

(** The [for { select { ... } }] loop, one unit of fuel per iteration. *)
Fixpoint publishedLoop (fuel : nat) (ctx : context.Context) (deal : cid.Cid)
    (updates : Chan) : M W unit :=
  match fuel with
  | O => noReturn
  | S fuel' =>
      c <- (λ w, let (c, w') := select_Done_recv env ctx updates w in
                mkRes (Ret c) w' []) ;;
      match c with
      | None => noReturn
      | Some CaseDone =>
          t_Fatal ["context timeout"] ;;;
          publishedLoop fuel' ctx deal updates
      | Some (CaseRecv di) =>
          if cid.Equals deal (md_ProposalCid di) then
            returned <-
              match md_State di with
              | StorageDealProposalRejected =>
                  t_Fatal ["deal rejected"] ;;; ret false
              | StorageDealFailing =>
                  t_Fatal ["deal failed"] ;;; ret false
              | StorageDealError =>
                  t_Fatal ["deal errored"; md_Message di] ;;; ret false
              | StorageDealFinalizing
              | StorageDealAwaitingPreCommit
              | StorageDealSealing
              | StorageDealActive =>
                  t_Log (LogComplete di) ;;; ret true
              | _ => ret false
              end ;;
            if returned : bool then ret tt
            else
              t_Log (LogState (md_State di)) ;;;
              publishedLoop fuel' ctx deal updates
          else publishedLoop fuel' ctx deal updates
      end
  end.

Definition WaitDealPublished (fuel : nat) (ctx : context.Context) (deal : cid.Cid)
    : M W unit :=
  subCtx <- (λ w, let (c, w') := context_WithCancel env ctx w in
                 mkRes (Ret c) w' []) ;;
  defer (context_cancel env subCtx)
    (r <- call (MarketGetDealUpdates env subCtx) ;;
     updates <- require_NoError r ;;
     publishedLoop fuel ctx deal updates).

End Harness.

Arguments call {W A} _ _.
Arguments require_NoError {W A} _ _.
Arguments t_Fatal {W} _ _.
Arguments t_Log {W} _ _.
Arguments noReturn {W A} _.
Arguments DealStateCheck : clear implicits.

(** ** A scripted collaborator

    A fixture answers every query from a table indexed by the number of
    sleeps the harness has taken so far, so the world only moves between
    polling passes; the update channel delivers a fixed script. *)

Module Fixture.

Record Script : Type := mkScript {
  fx_deal : nat → cid.Cid → Reply api.DealInfo;
  fx_mds : nat → Reply (list MinerDeal);
  fx_sectors : nat → Reply (list abi.SectorNumber);
  fx_status : nat → abi.SectorNumber → Reply api.SectorInfo
}.

Record World : Type := mkWorld {
  clock : nat;
  inbox : list SelectCase;
  cancelled : list context.Context
}.

Definition tick (w : World) : World :=
  mkWorld (S (clock w)) (inbox w) (cancelled w).

(** The select takes what the script delivers next; once the script is
    exhausted it finds [ctx.Done()] closed if [ctx] was cancelled, and
    blocks otherwise. *)
Definition recv (ctx : context.Context) (w : World) : option SelectCase * World :=
  match inbox w with
  | c :: rest => (Some c, mkWorld (clock w) rest (cancelled w))
  | [] =>
      if bool_decide (ctx ∈ cancelled w) then (Some CaseDone, w)
      else (None, w)
  end.

Definition env (fx : Script) : Env World := {|
  ClientGetDealInfo := λ _ deal w, (fx_deal fx (clock w) deal, w);
  MarketListIncompleteDeals := λ _ w, (fx_mds fx (clock w), w);
  SectorsList := λ _ w, (fx_sectors fx (clock w), w);
  SectorsStatus := λ _ sn _ w, (fx_status fx (clock w) sn, w);
  MarketGetDealUpdates := λ _ w, (Ok 0%nat, w);
  SectorStartSealing := λ _ _ w, (Ok tt, w);
  FlushSealingBatches := λ _ w, w;
  context_WithCancel := λ ctx w, (S ctx, w);
  context_cancel := λ ctx w,
    mkWorld (clock w) (inbox w) (ctx :: cancelled w);
  select_Done_recv := λ ctx _ w, recv ctx w;
  time_Sleep := λ _ w, tick w;
  mapRange := λ todo _, elements todo
|}.

Definition start : World := mkWorld 0 [] [].

End Fixture.

(** ** The error taxonomy of the wait helpers *)

(** The classifications a wait can stop with. *)
Inductive Classification : Set :=
| FatalRejected
| FatalFailing
| FatalErrored (message : string)
| Timeout
| TransportError (err : string).

(** How each classification reaches the test: the arguments of the
    [t.Fatal] call, or the error handed to [require.NoError]. *)
Definition reported (c : Classification) : Failure :=
  match c with
  | FatalRejected => Fatal ["deal rejected"]
  | FatalFailing => Fatal ["deal failed"]
  | FatalErrored message => Fatal ["deal errored"; message]
  | Timeout => Fatal ["context timeout"]
  | TransportError err => NoErrorFailed err
  end.

(** The fixed FatalState set. *)
Definition FatalStates : list StorageDealStatus :=
  [StorageDealProposalRejected; StorageDealFailing; StorageDealError].

(** The classification of a deal in a fatal state. *)
Definition fatalClass (st : StorageDealStatus) (message : string)
    : option Classification :=
  match st with
  | StorageDealProposalRejected => Some FatalRejected
  | StorageDealFailing => Some FatalFailing
  | StorageDealError => Some (FatalErrored message)
  | _ => None
  end.

(** The states [WaitDealPublished] accepts as published. *)
Definition PublishedStates : list StorageDealStatus :=
  [StorageDealFinalizing; StorageDealAwaitingPreCommit;
   StorageDealSealing; StorageDealActive].

(** ** Concrete deals and scripts *)

Definition di_of (c : cid.Cid) (st : StorageDealStatus) (msg : string)
    (id : abi.DealID) : api.DealInfo :=
  api.mkDealInfo c st msg "" id.

Definition si_of (sn : abi.SectorNumber) (st : api.SectorState)
    (deals : list abi.DealID) : api.SectorInfo :=
  api.mkSectorInfo sn st deals.

(** [D1] is reported as AwaitingPreCommit, Sealing, Active in the first
    three passes (and Active from then on); there are no sectors. *)
Definition fxSealing : Fixture.Script := {|
  Fixture.fx_deal := λ i c,
    match i with
    | 0 => Ok (di_of c StorageDealAwaitingPreCommit "" 7%N)
    | 1 => Ok (di_of c StorageDealSealing "" 7%N)
    | _ => Ok (di_of c StorageDealActive "" 7%N)
    end%nat;
  Fixture.fx_mds := λ _, Ok [];
  Fixture.fx_sectors := λ _, Ok [];
  Fixture.fx_status := λ _ _, Err "sector not found"
|}.

(** Every deal is reported in state Error, with a message; the miner has
    no sectors. *)
Definition fxError : Fixture.Script := {|
  Fixture.fx_deal := λ _ c, Ok (di_of c StorageDealError "insufficient funds" 9%N);
  Fixture.fx_mds := λ _, Ok [];
  Fixture.fx_sectors := λ _, Ok [];
  Fixture.fx_status := λ _ _, Err "sector not found"
|}.

(** [D2] is in state Error; every other deal stays in Sealing. *)
Definition fxMixed : Fixture.Script := {|
  Fixture.fx_deal := λ _ c,
    if bool_decide (c = "D2")
    then Ok (di_of c StorageDealError "insufficient funds" 9%N)
    else Ok (di_of c StorageDealSealing "" 7%N);
  Fixture.fx_mds := λ _, Ok [];
  Fixture.fx_sectors := λ _, Ok [];
  Fixture.fx_status := λ _ _, Err "sector not found"
|}.

(** The state of each deal per pass: [D1] is Active from the second pass
    on, every other deal from the third. *)
Definition stateTwo (i : nat) (c : cid.Cid) : StorageDealStatus :=
  if bool_decide (c = "D1") then
    match i with 0%nat => StorageDealSealing | _ => StorageDealActive end
  else
    match i with
    | 0%nat => StorageDealAwaitingPreCommit
    | 1%nat => StorageDealSealing
    | _ => StorageDealActive
    end.

Definition fxTwo : Fixture.Script := {|
  Fixture.fx_deal := λ i c, Ok (di_of c (stateTwo i c) "" 7%N);
  Fixture.fx_mds := λ _, Ok [];
  Fixture.fx_sectors := λ _, Ok [];
  Fixture.fx_status := λ _ _, Err "sector not found"
|}.

(** A callback that only leaves a line in the log. *)
Definition logCallback {W} : M W unit := t_Log (LogSectorState "callback").

(** A world in which context 0 has been cancelled. *)
Definition cancelledWorld : Fixture.World := Fixture.mkWorld 0 [] [0%nat].

(** The updates of a publication: one for another deal, one for [D1]
    while it is publishing, one for [D1] once it is sealing. *)
Definition md_of (c : cid.Cid) (st : StorageDealStatus) : MinerDeal :=
  mkMinerDeal c st "" 7%N.

Definition publishingWorld : Fixture.World :=
  Fixture.mkWorld 0
    [CaseRecv (md_of "D0" StorageDealActive);
     CaseRecv (md_of "D1" StorageDealPublishing);
     CaseRecv (md_of "D1" StorageDealSealing)]
    [].

(** Deal 7 sits in sector 0, deal 9 in sector 3; both sectors are Proving. *)
Definition fxSectors : Fixture.Script := {|
  Fixture.fx_deal := λ _ c, Ok (di_of c StorageDealActive "" 7%N);
  Fixture.fx_mds := λ _, Ok [];
  Fixture.fx_sectors := λ _, Ok [0%N; 3%N];
  Fixture.fx_status := λ _ sn,
    if (sn =? 0)%N then Ok (si_of 0%N "Proving" [5%N; 7%N])
    else if (sn =? 3)%N then Ok (si_of 3%N "Proving" [9%N])
    else Err "sector not found"
|}.

(** ** Runs of the update subscription *)

(** From world [w], successive selects over [ctx.Done()] and the update
    channel yield the cases [cs], in this order, and leave world [w']. *)
Inductive selects {W} (env : Env W) (ctx : context.Context) (updates : Chan)
    : W → list SelectCase → W → Prop :=
| selects_nil w : selects env ctx updates w [] w
| selects_cons w c w1 cs w' :
    select_Done_recv env ctx updates w = (Some c, w1) →
    selects env ctx updates w1 cs w' →
    selects env ctx updates w (c :: cs) w'.

(** An update that does not end the wait for [deal]: it is about another
    deal, or reports a state that is neither fatal nor published. *)
Definition passedOver (deal : cid.Cid) (c : SelectCase) : Prop :=
  match c with
  | CaseDone => False
  | CaseRecv di =>
      (md_ProposalCid di ≠ deal)
      ∨ ((md_State di ∉ FatalStates) ∧ (md_State di ∉ PublishedStates))
  end.

(** What the wait logs for an update it passes over. *)
Definition updateLog (deal : cid.Cid) (c : SelectCase) : list Event :=
  match c with
  | CaseDone => []
  | CaseRecv di =>
      if decide (md_ProposalCid di = deal) then [LogState (md_State di)]
      else []
  end.

(** The result [r], with [evs] logged before it. *)
Definition prepend {W A} (evs : list Event) (r : Res W A) : Res W A :=
  mkRes (outcome r) (world r) (evs ++ events r).

(** ** The two halves of one evaluation in a polling pass *)

(** What [WaitDealStates] fetches for one deal before it runs the checks:
    the client's view of the deal, the miner's incomplete deals, and the
    sector the scan correlates with the deal. *)
Definition snapshot {W} (env : Env W) (ctx : context.Context) (deal : cid.Cid)
    : M W (api.DealInfo * list MinerDeal * abi.SectorNumber) :=
  r <- call (ClientGetDealInfo env ctx deal) ;;
  di <- require_NoError r ;;
  r <- call (MarketListIncompleteDeals env ctx) ;;
  mds <- require_NoError r ;;
  r <- call (SectorsList env ctx) ;;
  sl <- require_NoError r ;;
  ms <- sloop env ctx (api.DealID di) sl 0%N ;;
  ret (di, mds, ms).

(** What one evaluation logs once the checks have answered [done]. *)
Definition verdictLog (di : api.DealInfo) (mds : list MinerDeal)
    (done : bool) : list Event :=
  (if done then [LogWaitComplete di] else [])
  ++ [LogDealState (api.DealID di) (api.State di)
        (md_State (mdsRange mds (api.DealID di)))].

(** The interval between two passes, [time.Second / 2], in nanoseconds. *)
Definition halfSecond : time.Duration := 500000000%Z.

(** ** Passes of the polling loop, seen from outside *)

(** [sat i d]: in pass [i] (counted from 0) every supplied check answers
    true for identity [d].  The identities of [todo] still pending after
    the [k] passes [i], ..., [i + k - 1] are those satisfied in none. *)
Definition pendingAfter (sat : nat → cid.Cid → bool) (i k : nat)
    (todo : gset cid.Cid) : gset cid.Cid :=
  filter (λ d, forallb (λ j, negb (sat j d)) (seq i k) = true) todo.

(** The conjunction of the answers of the checks. *)
Definition allTrue (answers : list bool) : bool := forallb id answers.

(** Go visits every key of the map once, in an order of its choosing. *)
Definition rangeVisitsEachKeyOnce {W} (env : Env W) : Prop :=
  ∀ (todo : gset cid.Cid) (w : W), mapRange env todo w ≡ₚ elements todo.

(** ** Collaborators that answer two contexts alike *)

(** The four queries of the polling loop and the supplied checks give the
    same results under [ctx] and under [ctx'], in every world. *)
Definition sameAnswers {W} (env : Env W) (stateChecks : list (DealStateCheck W))
    (ctx ctx' : context.Context) : Prop :=
  (∀ deal w, ClientGetDealInfo env ctx deal w = ClientGetDealInfo env ctx' deal w)
  ∧ (∀ w, MarketListIncompleteDeals env ctx w
          = MarketListIncompleteDeals env ctx' w)
  ∧ (∀ w, SectorsList env ctx w = SectorsList env ctx' w)
  ∧ (∀ s b w, SectorsStatus env ctx s b w = SectorsStatus env ctx' s b w)
  ∧ Forall (λ check : DealStateCheck W,
              ∀ di ms w, check ctx di ms w = check ctx' di ms w) stateChecks.

(** ** The miner's sector table *)

(** The miner answers status queries for the listed sectors from the
    table [status], and answering does not change the world [w]. *)
Definition statusTable {W} (env : Env W) (ctx : context.Context)
    (sl : list abi.SectorNumber) (w : W)
    (status : abi.SectorNumber → api.SectorInfo) : Prop :=
  ∀ s, s ∈ sl → SectorsStatus env ctx s false w = (Ok (status s), w).

(** ** Inputs of the concrete runs *)

Definition ctx0 : context.Context := 0%nat.

(** The sector table of [fxSectors]. *)
Definition statusSectors (s : abi.SectorNumber) : api.SectorInfo :=
  if (s =? 0)%N then si_of 0%N "Proving" [5%N; 7%N]
  else si_of 3%N "Proving" [9%N].

(** Fire a callback while the deal is sealing, and wait for Active. *)
Definition checksSealingThenActive : list (DealStateCheck Fixture.World) :=
  [DealOn logCallback [StorageDealSealing]; DealState [StorageDealActive]].

(** What [fxTwo] makes of each identity in each pass: the snapshot, and
    the answers of the two checks of [checksSealingThenActive]. *)
Definition snapTwo (i : nat) (d : cid.Cid)
    : api.DealInfo * list MinerDeal * abi.SectorNumber :=
  (di_of d (stateTwo i d) "" 7%N, [], 0%N).

Definition answersTwo (i : nat) (d : cid.Cid) : list bool :=
  [true; bool_decide (stateTwo i d = StorageDealActive)].

(** ** The second half of one evaluation *)

(** What [WaitDealStates] does with a fetched snapshot: run the checks,
    drop the identity when all of them answered true, write the log line. *)
Definition judge {W} (ctx : context.Context)
    (stateChecks : list (DealStateCheck W)) (todo : gset cid.Cid)
    (deal : cid.Cid)
    (s : api.DealInfo * list MinerDeal * abi.SectorNumber)
    : M W (gset cid.Cid) :=
  let '(di, mds, ms) := s in
  done <- checksRange ctx di ms stateChecks ;;
  todo' <- (if done : bool
            then t_Log (LogWaitComplete di) ;;; ret (todo ∖ {[deal]})
            else ret todo) ;;
  t_Log (LogDealState (api.DealID di) (api.State di)
           (md_State (mdsRange mds (api.DealID di)))) ;;;
  ret todo'.

(** One of the queries of an evaluation of [deal] that starts in world
    [w] answers with the error [e]; [w'] is the world after that query. *)
Inductive queryFails {W} (env : Env W) (ctx : context.Context)
    (deal : cid.Cid) (w : W) (e : string) (w' : W) : Prop :=
| fails_deal_info :
    ClientGetDealInfo env ctx deal w = (Err e, w') →
    queryFails env ctx deal w e w'
| fails_incomplete_deals di w1 :
    ClientGetDealInfo env ctx deal w = (Ok di, w1) →
    MarketListIncompleteDeals env ctx w1 = (Err e, w') →
    queryFails env ctx deal w e w'
| fails_sectors_list di w1 mds w2 :
    ClientGetDealInfo env ctx deal w = (Ok di, w1) →
    MarketListIncompleteDeals env ctx w1 = (Ok mds, w2) →
    SectorsList env ctx w2 = (Err e, w') →
    queryFails env ctx deal w e w'
| fails_sector_status di w1 mds w2 sl w3 :
    ClientGetDealInfo env ctx deal w = (Ok di, w1) →
    MarketListIncompleteDeals env ctx w1 = (Ok mds, w2) →
    SectorsList env ctx w2 = (Ok sl, w3) →
    outcome (sloop env ctx (api.DealID di) sl 0%N w3)
      = FailNow (NoErrorFailed e) →
    world (sloop env ctx (api.DealID di) sl 0%N w3) = w' →
    queryFails env ctx deal w e w'.

(** Every [DealState] check among [stateChecks] accepts the state of
    [di]. *)
Definition accepted {W} (stateChecks : list (DealStateCheck W))
    (di : api.DealInfo) : Prop :=
  ∀ expect, DealState expect ∈ stateChecks → api.State di ∈ expect.

(** ** A miner that keeps a ledger of the sealing calls it receives *)

Module Ledger.

Inductive Call : Set :=
| CallStart (s : abi.SectorNumber)
| CallFlush.

(** The miner's answers, and the client's view of every deal. *)
Record Miner : Type := mkMiner {
  listing : Reply (list abi.SectorNumber);
  status : abi.SectorNumber → Reply api.SectorInfo;
  start : abi.SectorNumber → Reply unit;
  dealInfo : cid.Cid → Reply api.DealInfo
}.

(** The world is the list of the calls received so far, oldest first. *)
Definition World : Type := list Call.

Definition env (m : Miner) : Env World := {|
  ClientGetDealInfo := λ _ deal w, (dealInfo m deal, w);
  MarketListIncompleteDeals := λ _ w, (Ok [], w);
  SectorsList := λ _ w, (listing m, w);
  SectorsStatus := λ _ sn _ w, (status m sn, w);
  MarketGetDealUpdates := λ _ w, (Ok 0%nat, w);
  SectorStartSealing := λ _ sn w, (start m sn, w ++ [CallStart sn]);
  FlushSealingBatches := λ _ w, w ++ [CallFlush];
  context_WithCancel := λ ctx w, (S ctx, w);
  context_cancel := λ _ w, w;
  select_Done_recv := λ _ _ w, (None, w);
  time_Sleep := λ _ w, w;
  mapRange := λ todo _, elements todo
|}.

(** The calls one run of [StartSealingWaiting] makes for the sectors
    [sl] in the states [st]: sealing is started for the sectors waiting
    for deals, and the batches are flushed after every sector. *)
Definition sealingCalls (st : abi.SectorNumber → api.SectorState)
    (sl : list abi.SectorNumber) : list Call :=
  flat_map (λ s, (if bool_decide (st s = sealing.WaitDeals)
                  then [CallStart s] else []) ++ [CallFlush]) sl.

(** The state of sector [s] in the table [st]. *)
Definition stateOf (st : abi.SectorNumber → api.SectorInfo)
    (s : abi.SectorNumber) : api.SectorState :=
  api.si_State (st s).

(** The miner answers the status queries of [sl] from [st], and accepts
    to start sealing the sectors of [sl] that wait for deals. *)
Definition answers (m : Miner) (st : abi.SectorNumber → api.SectorInfo)
    (sl : list abi.SectorNumber) : Prop :=
  ∀ s, s ∈ sl →
    status m s = Ok (st s)
    ∧ (stateOf st s = sealing.WaitDeals → start m s = Ok tt).


End Ledger.

(** The "Sector state" lines of one run of [StartSealingWaiting]. *)
Definition sectorLogs (st : abi.SectorNumber → api.SectorState)
    (sl : list abi.SectorNumber) : list Event :=
  map (λ s, LogSectorState (st s)) sl.


(** ** How a wait for publication can end *)



(** ** Inputs of the further concrete runs *)

(** Sector 1 waits for deals, sector 2 is Proving, sector 4 waits for
    deals; deal [D1] is sealing. *)
Definition minerWaiting : Ledger.Miner := {|
  Ledger.listing := Ok [1%N; 2%N; 4%N];
  Ledger.status := λ s,
    Ok (si_of s (if (s =? 2)%N then "Proving" else sealing.WaitDeals) []);
  Ledger.start := λ _, Ok tt;
  Ledger.dealInfo := λ c, Ok (di_of c StorageDealSealing "" 7%N)
|}.

Definition statesWaiting (s : abi.SectorNumber) : api.SectorInfo :=
  si_of s (if (s =? 2)%N then "Proving" else sealing.WaitDeals) [].

(** The status of sector 2 cannot be fetched. *)
Definition minerBroken : Ledger.Miner := {|
  Ledger.listing := Ok [1%N; 2%N; 4%N];
  Ledger.status := λ s,
    if (s =? 2)%N then Err "sector not found"
    else Ok (si_of s sealing.WaitDeals []);
  Ledger.start := λ _, Ok tt;
  Ledger.dealInfo := λ c, Ok (di_of c StorageDealSealing "" 7%N)
|}.

(** Sector 2 holds deal 9; the status of sector 3 cannot be fetched. *)
Definition fxBrokenSector : Fixture.Script := {|
  Fixture.fx_deal := λ _ c, Ok (di_of c StorageDealActive "" 9%N);
  Fixture.fx_mds := λ _, Ok [];
  Fixture.fx_sectors := λ _, Ok [2%N; 3%N];
  Fixture.fx_status := λ _ sn,
    if (sn =? 2)%N then Ok (si_of 2%N "Proving" [5%N; 9%N])
    else Err "sector not found"
|}.

(** The client cannot be reached. *)
Definition fxNoClient : Fixture.Script := {|
  Fixture.fx_deal := λ _ _, Err "connection refused";
  Fixture.fx_mds := λ _, Ok [];
  Fixture.fx_sectors := λ _, Ok [];
  Fixture.fx_status := λ _ _, Err "sector not found"
|}.

(** A callback that stops the test. *)
Definition failingCallback {W} : M W unit := t_Fatal ["sealing failed"].

(** A world in which context 0 has been cancelled and an update that
    reports [D1] as sealing is ready to be received. *)
Definition racingWorld : Fixture.World :=
  Fixture.mkWorld 0 [CaseRecv (md_of "D1" StorageDealSealing)] [0%nat].

(** ** Reasoning about runs *)

Section Runs.
Context {W : Type}.
Implicit Types w : W.

Lemma bind_Ret {A B} (m : M W A) (k : A → M W B) w a w1 e1 :
  m w = mkRes (Ret a) w1 e1 →
  bind m k w =
    mkRes (outcome (k a w1)) (world (k a w1)) (e1 ++ events (k a w1)).
Proof. intros Hm. unfold bind. rewrite Hm. reflexivity. Qed.

Lemma bind_Ret_eq {A B} (m : M W A) (k : A → M W B) w a w1 e1 o w2 e2 :
  m w = mkRes (Ret a) w1 e1 →
  k a w1 = mkRes o w2 e2 →
  bind m k w = mkRes o w2 (e1 ++ e2).
Proof. intros Hm Hk. rewrite (bind_Ret _ _ _ _ _ _ Hm), Hk. reflexivity. Qed.

Lemma bind_FailNow {A B} (m : M W A) (k : A → M W B) w f w1 e1 :
  m w = mkRes (FailNow f) w1 e1 →
  bind m k w = mkRes (FailNow f) w1 e1.
Proof. intros Hm. unfold bind. rewrite Hm. reflexivity. Qed.

Lemma bind_NoReturn {A B} (m : M W A) (k : A → M W B) w w1 e1 :
  m w = mkRes NoReturn w1 e1 →
  bind m k w = mkRes NoReturn w1 e1.
Proof. intros Hm. unfold bind. rewrite Hm. reflexivity. Qed.

Lemma bind_assoc {A B C} (m : M W A) (f : A → M W B) (g : B → M W C) w :
  bind (bind m f) g w = bind m (λ x, bind (f x) g) w.
Proof.
  unfold bind. destruct (m w) as [[a|fl|] w1 e1]; simpl; try reflexivity.
  destruct (f a w1) as [[b|fl|] w2 e2]; simpl; try reflexivity.
  destruct (g b w2) as [o w3 e3]; simpl. by rewrite app_assoc.
Qed.

Lemma res_eta {A} (r : Res W A) : r = mkRes (outcome r) (world r) (events r).
Proof. by destruct r. Qed.

Lemma bind_ext {A B} (m m' : M W A) (k k' : A → M W B) w :
  m w = m' w → (∀ a w1, k a w1 = k' a w1) → bind m k w = bind m' k' w.
Proof.
  intros Hm Hk. unfold bind. rewrite Hm.
  destruct (outcome (m' w)); [by rewrite Hk|done..].
Qed.

Lemma bind_ret_l {A B} (a : A) (k : A → M W B) w : bind (ret a) k w = k a w.
Proof. unfold bind, ret. simpl. symmetry. apply res_eta. Qed.

Lemma bind_call {A B} (q : W → Reply A * W) (k : Reply A → M W B) w :
  bind (call q) k w = k (q w).1 (q w).2.
Proof.
  unfold bind, call. destruct (q w) as [r w1]. simpl.
  symmetry. apply res_eta.
Qed.

Lemma bind_require_Ok {A B} (a : A) (k : A → M W B) w :
  bind (require_NoError (Ok a)) k w = k a w.
Proof. apply bind_ret_l. Qed.

Lemma bind_require_Err {A B} e (k : A → M W B) w :
  bind (require_NoError (Err e)) k w = mkRes (FailNow (NoErrorFailed e)) w [].
Proof. reflexivity. Qed.

End Runs.

(** ** The fixed state sets *)

Lemma FatalStates_spec st :
  st ∈ FatalStates ↔
  st = StorageDealProposalRejected ∨ st = StorageDealFailing
  ∨ st = StorageDealError.
Proof.
  unfold FatalStates. rewrite !elem_of_cons, elem_of_nil. tauto.
Qed.

Lemma PublishedStates_spec st :
  st ∈ PublishedStates ↔
  st = StorageDealFinalizing ∨ st = StorageDealAwaitingPreCommit
  ∨ st = StorageDealSealing ∨ st = StorageDealActive.
Proof.
  unfold PublishedStates. rewrite !elem_of_cons, elem_of_nil. tauto.
Qed.

(** ** The state checks *)

Section Checks.
Context {W : Type}.
Variable env : Env W.
Implicit Types (w : W) (di : api.DealInfo) (sn : abi.SectorNumber).

Lemma DealState_range_elem st expect :
  DealState_range st expect = true ↔ st ∈ expect.
Proof.
  induction expect as [|state expect IH]; simpl.
  - split; [discriminate | intros H; inversion H].
  - destruct (decide (st = state)) as [->|Hne].
    + split; [intros _; left | reflexivity].
    + rewrite IH. split; [by right | ].
      intros H. inversion H; [congruence | assumption].
Qed.

Lemma fatalClass_elem st message :
  is_Some (fatalClass st message) ↔ st ∈ FatalStates.
Proof.
  rewrite FatalStates_spec. split.
  - intros [c Hc]. destruct st; try discriminate; tauto.
  - intros H. destruct st; simpl; eauto; exfalso;
      repeat (destruct H as [H|H]; try discriminate H).
Qed.

Lemma DealState_outside_fatal (expect : list StorageDealStatus)
    ctx di sn w c :
  api.State di ∉ expect →
  fatalClass (api.State di) (api.Message di) = Some c →
  DealState expect ctx di sn w = mkRes (FailNow (reported c)) w [].
Proof.
  intros Hout Hc. unfold DealState.
  destruct (DealState_range (api.State di) expect) eqn:E.
  - apply DealState_range_elem in E. done.
  - destruct (api.State di); try discriminate Hc;
      injection Hc as <-; reflexivity.
Qed.

(** C5: a [DealState] check returns true exactly when the deal's state
    is in the acceptance set.  Outside it, a deal in one of the fatal
    states stops the test with the matching classification (rejected,
    failing, or errored with the deal's message) instead of returning
    false; any other state returns false.  The check leaves the world as
    it was and logs nothing. *)
Theorem DealState_membership (expect : list StorageDealStatus) ctx di sn w :
  (outcome (DealState expect ctx di sn w) = Ret true ↔ api.State di ∈ expect)
  ∧ (api.State di ∈ expect →
     DealState expect ctx di sn w = mkRes (Ret true) w [])
  ∧ (api.State di ∉ expect →
     match fatalClass (api.State di) (api.Message di) with
     | Some c =>
         (api.State di ∈ FatalStates)
         ∧ DealState expect ctx di sn w = mkRes (FailNow (reported c)) w []
     | None =>
         (api.State di ∉ FatalStates)
         ∧ DealState expect ctx di sn w = mkRes (Ret false) w []
     end).
Proof.
  pose proof (DealState_range_elem (api.State di) expect) as Hr.
  pose proof (fatalClass_elem (api.State di) (api.Message di)) as Hf.
  unfold DealState.
  destruct (DealState_range (api.State di) expect) eqn:E.
  - split; [|split].
    + split; [intros _; by apply Hr | reflexivity].
    + reflexivity.
    + intros Hn. exfalso. apply Hn. by apply Hr.
  - assert (Hn : api.State di ∉ expect).
    { intros Hin. apply Hr in Hin. discriminate. }
    split; [|split].
    + split; [|done].
      destruct (api.State di); simpl; discriminate.
    + done.
    + intros _.
      destruct (fatalClass (api.State di) (api.Message di)) as [c|] eqn:Ec.
      * split; [apply Hf; eauto|].
        destruct (api.State di); try discriminate Ec;
          injection Ec as <-; reflexivity.
      * split; [intros Hin; apply Hf in Hin as [c Hc]; discriminate|].
        destruct (api.State di); try discriminate Ec; reflexivity.
Qed.

Lemma DealOn_range_elem (cb : M W unit) st state :
  st ∈ state → DealOn_range cb st state = cb.
Proof.
  induction state as [|state0 state IH]; simpl; intros H.
  - inversion H.
  - destruct (decide (st = state0)); [reflexivity|].
    apply IH. inversion H; [congruence | assumption].
Qed.

Lemma DealOn_range_not_elem (cb : M W unit) st state :
  st ∉ state → DealOn_range cb st state = ret tt.
Proof.
  induction state as [|state0 state IH]; simpl; intros H; [reflexivity|].
  destruct (decide (st = state0)) as [->|]; [exfalso; apply H; left|].
  apply IH. intros Hin. apply H. by right.
Qed.

(** C6: a [DealOn] check never answers false.  When the deal's state is
    among the configured states, one evaluation is exactly one run of
    the callback followed by the answer true, however often the state is
    listed; otherwise the callback is not run, the world and the log are
    untouched, and the answer is true.  So whenever the callback (if it
    is run) returns, the check returns true. *)
Theorem DealOn_true_callback_once (cb : M W unit)
    (state : list StorageDealStatus) ctx di sn w :
  (api.State di ∈ state →
     DealOn cb state ctx di sn w = (cb ;;; ret true) w)
  ∧ (api.State di ∉ state →
     DealOn cb state ctx di sn w = mkRes (Ret true) w [])
  ∧ outcome (DealOn cb state ctx di sn w) ≠ Ret false
  ∧ (outcome (cb w) = Ret tt →
     outcome (DealOn cb state ctx di sn w) = Ret true).
Proof.
  assert (Hin : api.State di ∈ state →
                DealOn cb state ctx di sn w = (cb ;;; ret true) w).
  { intros H. unfold DealOn. by rewrite DealOn_range_elem. }
  assert (Hout : api.State di ∉ state →
                 DealOn cb state ctx di sn w = mkRes (Ret true) w []).
  { intros H. unfold DealOn. by rewrite DealOn_range_not_elem. }
  split; [exact Hin|]. split; [exact Hout|].
  destruct (decide (api.State di ∈ state)) as [H|H].
  - rewrite (Hin H). unfold bind, ret.
    destruct (cb w) as [[[]|f|] w1 e1]; simpl; split; congruence.
  - rewrite (Hout H). simpl. split; congruence.
Qed.

(** C7: a [DealSectorState] check returns false whenever the sector
    number it is given is the "none" value 0, whatever the deal's own
    state, without asking the miner; for any other sector number whose
    status query succeeds it returns true exactly when the sector's
    state equals the target state. *)
Theorem DealSectorState_none_or_equal (expect : sealing.SectorState)
    ctx di sn w :
  (sn = 0%N → DealSectorState env expect ctx di sn w = mkRes (Ret false) w [])
  ∧ (sn ≠ 0%N → ∀ si w',
       SectorsStatus env ctx sn false w = (Ok si, w') →
       ∃ b, DealSectorState env expect ctx di sn w = mkRes (Ret b) w' []
            ∧ (b = true ↔ api.si_State si = expect)).
Proof.
  unfold DealSectorState. split.
  - intros ->. reflexivity.
  - intros Hne si w' Hq.
    destruct (N.eqb_spec sn 0); [done|].
    exists (bool_decide (api.si_State si = expect)). split.
    + unfold bind, call. rewrite Hq. reflexivity.
    + apply bool_decide_eq_true.
Qed.

End Checks.

(** ** The sector correlation scan *)

Section Correlation.
Context {W : Type}.
Variable env : Env W.
Variable ctx : context.Context.
Implicit Types (w : W) (id : abi.DealID) (sl : list abi.SectorNumber).

Lemma dealsRange_elem (deals : list abi.DealID) id :
  dealsRange deals id = true ↔ id ∈ deals.
Proof.
  induction deals as [|dealId deals IH]; simpl.
  - split; [discriminate | intros H; inversion H].
  - destruct (N.eqb_spec dealId id) as [->|Hne].
    + split; [intros _; left | reflexivity].
    + rewrite IH. split; [by right|].
      intros H. inversion H; [congruence | assumption].
Qed.

Lemma sloop_step_miss sl w status s id ms :
  SectorsStatus env ctx s false w = (Ok (status s), w) →
  id ∉ api.Deals (status s) →
  sloop env ctx id (s :: sl) ms w = sloop env ctx id sl ms w.
Proof.
  intros Hq Hmiss. simpl. unfold bind at 1, call. rewrite Hq. simpl.
  destruct (dealsRange (api.Deals (status s)) id) eqn:E.
  - apply dealsRange_elem in E. done.
  - destruct (sloop env ctx id sl ms w); reflexivity.
Qed.

Lemma sloop_step_hit sl w status s id ms :
  SectorsStatus env ctx s false w = (Ok (status s), w) →
  id ∈ api.Deals (status s) →
  sloop env ctx id (s :: sl) ms w = mkRes (Ret s) w [].
Proof.
  intros Hq Hhit. simpl. unfold bind at 1, call. rewrite Hq. simpl.
  apply dealsRange_elem in Hhit. rewrite Hhit. reflexivity.
Qed.

Lemma sloop_none sl w status id ms :
  statusTable env ctx sl w status →
  (∀ s, s ∈ sl → id ∉ api.Deals (status s)) →
  sloop env ctx id sl ms w = mkRes (Ret ms) w [].
Proof.
  induction sl as [|s sl IH]; intros Ht Hmiss; [reflexivity|].
  rewrite (sloop_step_miss sl w status).
  - apply IH.
    + intros s' Hs'. apply Ht. by right.
    + intros s' Hs'. apply Hmiss. by right.
  - apply Ht. left.
  - apply Hmiss. left.
Qed.

Lemma sloop_first pre s post w status id ms :
  statusTable env ctx (pre ++ s :: post) w status →
  (∀ s', s' ∈ pre → id ∉ api.Deals (status s')) →
  id ∈ api.Deals (status s) →
  sloop env ctx id (pre ++ s :: post) ms w = mkRes (Ret s) w [].
Proof.
  induction pre as [|p pre IH]; intros Ht Hmiss Hhit; simpl app.
  - apply (sloop_step_hit post w status); [apply Ht; left | done].
  - rewrite (sloop_step_miss _ w status).
    + apply IH; [|intros s' Hs'; apply Hmiss; by right|done].
      intros s' Hs'. apply Ht. by right.
    + apply Ht. left.
    + apply Hmiss. left.
Qed.

(** C8: with a miner that answers the status queries of the listed
    sectors, the scan over the sector listing [sl] returns the first
    sector of the listing, in listing order, whose deal set contains the
    deal's identity; when no listed sector contains it the scan yields
    the value the variable [ms] was declared with, the "none" value 0. *)
Theorem sloop_first_containing sl w status id :
  statusTable env ctx sl w status →
  ((∀ s, s ∈ sl → id ∉ api.Deals (status s)) →
     sloop env ctx id sl 0%N w = mkRes (Ret 0%N) w [])
  ∧ (∀ (pre : list abi.SectorNumber) s post,
       sl = (pre ++ s :: post)%list →
       (∀ s', s' ∈ pre → id ∉ api.Deals (status s')) →
       id ∈ api.Deals (status s) →
       sloop env ctx id sl 0%N w = mkRes (Ret s) w []).
Proof.
  intros Ht. split.
  - intros Hmiss. by apply (sloop_none sl w status).
  - intros pre s post -> Hmiss Hhit. by apply (sloop_first pre s post w status).
Qed.

(** C10: the "none" value of the scan is the sector number 0.  For a
    deal whose first containing sector in the listing is sector 0, the
    scan returns the same result as a scan over an empty listing, and a
    [DealSectorState] check run on that result returns false although
    sector 0 is in the target state. *)
Theorem sector_zero_reads_as_none (pre post : list abi.SectorNumber)
    w status di
    (expect : sealing.SectorState) :
  statusTable env ctx (pre ++ 0%N :: post) w status →
  (∀ s', s' ∈ pre → api.DealID di ∉ api.Deals (status s')) →
  api.DealID di ∈ api.Deals (status 0%N) →
  api.si_State (status 0%N) = expect →
  sloop env ctx (api.DealID di) (pre ++ 0%N :: post) 0%N w
    = sloop env ctx (api.DealID di) [] 0%N w
  ∧ (ms <- sloop env ctx (api.DealID di) (pre ++ 0%N :: post) 0%N ;;
     DealSectorState env expect ctx di ms) w = mkRes (Ret false) w [].
Proof.
  intros Ht Hmiss Hhit Hstate.
  pose proof (sloop_first pre 0%N post w status (api.DealID di) 0%N
                Ht Hmiss Hhit) as Hs.
  split; [exact Hs|].
  exact (bind_Ret_eq _ _ _ _ _ _ (Ret false) w [] Hs eq_refl).
Qed.

End Correlation.

(** ** Waiting for publication *)

Section Published.
Context {W : Type}.
Variable env : Env W.
Variables (ctx : context.Context) (deal : cid.Cid) (updates : Chan).
Implicit Types (w : W) (c : SelectCase) (cs : list SelectCase).

Lemma publishedLoop_pass fuel w c w1 :
  select_Done_recv env ctx updates w = (Some c, w1) →
  passedOver deal c →
  publishedLoop env (S fuel) ctx deal updates w
    = prepend (updateLog deal c) (publishedLoop env fuel ctx deal updates w1).
Proof.
  intros Hsel Hpass. simpl. unfold bind at 1. rewrite Hsel. simpl.
  destruct c as [|di]; [destruct Hpass|]. simpl in *.
  unfold cid.Equals, prepend.
  destruct (decide (md_ProposalCid di = deal)) as [Heq|Hne].
  - rewrite bool_decide_eq_true_2 by done.
    destruct Hpass as [Hne|[Hnf Hnp]]; [done|].
    rewrite FatalStates_spec in Hnf. rewrite PublishedStates_spec in Hnp.
    destruct (md_State di); try reflexivity; exfalso; tauto.
  - rewrite bool_decide_eq_false_2 by done. reflexivity.
Qed.

Lemma publishedLoop_passes cs : ∀ fuel w w1,
  selects env ctx updates w cs w1 →
  Forall (passedOver deal) cs →
  publishedLoop env (length cs + fuel) ctx deal updates w
    = prepend (concat (map (updateLog deal) cs))
        (publishedLoop env fuel ctx deal updates w1).
Proof.
  induction cs as [|c cs IH]; intros fuel w w1 Hsel Hall.
  - inversion Hsel; subst. unfold prepend. simpl. apply res_eta.
  - inversion Hsel as [|? ? w2 ? ? Hc Hrest]; subst.
    inversion Hall as [|? ? Hpc Hpcs]; subst.
    change (length (c :: cs) + fuel) with (S (length cs + fuel)).
    rewrite (publishedLoop_pass _ _ _ _ Hc Hpc), (IH _ _ _ Hrest Hpcs).
    unfold prepend. simpl. by rewrite app_assoc.
Qed.

Lemma publishedLoop_Done fuel w w1 :
  select_Done_recv env ctx updates w = (Some CaseDone, w1) →
  publishedLoop env (S fuel) ctx deal updates w
    = mkRes (FailNow (reported Timeout)) w1 [].
Proof. intros Hsel. simpl. unfold bind at 1. rewrite Hsel. reflexivity. Qed.

Lemma publishedLoop_fatal fuel w di w1 cl :
  select_Done_recv env ctx updates w = (Some (CaseRecv di), w1) →
  md_ProposalCid di = deal →
  fatalClass (md_State di) (md_Message di) = Some cl →
  publishedLoop env (S fuel) ctx deal updates w
    = mkRes (FailNow (reported cl)) w1 [].
Proof.
  intros Hsel Heq Hcl. simpl. unfold bind at 1. rewrite Hsel. simpl.
  unfold cid.Equals. rewrite bool_decide_eq_true_2 by done.
  destruct (md_State di); try discriminate Hcl;
    injection Hcl as <-; reflexivity.
Qed.

Lemma publishedLoop_published fuel w di w1 :
  select_Done_recv env ctx updates w = (Some (CaseRecv di), w1) →
  md_ProposalCid di = deal →
  md_State di ∈ PublishedStates →
  publishedLoop env (S fuel) ctx deal updates w
    = mkRes (Ret tt) w1 [LogComplete di].
Proof.
  intros Hsel Heq Hin. simpl. unfold bind at 1. rewrite Hsel. simpl.
  unfold cid.Equals. rewrite bool_decide_eq_true_2 by done.
  rewrite PublishedStates_spec in Hin.
  destruct (md_State di); try reflexivity; exfalso;
    repeat (destruct Hin as [Hin|Hin]; try discriminate Hin).
Qed.

(** C4 (as the code has it): a run of [WaitDealPublished] whose
    subscription succeeds.  The updates it receives for other deals are
    dropped silently and the updates for its own deal in a state that is
    neither fatal nor published are logged; after any number of those the
    wait is still running.  The first other case the select takes decides:
    the [ctx.Done()] case stops the test with "context timeout"; an update
    for the deal in state ProposalRejected, Failing or Error stops it with
    that fatal classification; an update for the deal in Finalizing,
    AwaitingPreCommit, Sealing or Active makes the wait return.  The
    deferred cancel has run in each of the three.  Which case the select
    takes when the context is done and an update is ready as well is the
    runtime's choice. *)
Theorem WaitDealPublished_classifies w0 subCtx wa w cs w1 :
  context_WithCancel env ctx w0 = (subCtx, wa) →
  MarketGetDealUpdates env subCtx wa = (Ok updates, w) →
  selects env ctx updates w cs w1 →
  Forall (passedOver deal) cs →
  let logged := concat (map (updateLog deal) cs) in
  WaitDealPublished env (length cs) ctx deal w0 = mkRes NoReturn w1 logged
  ∧ ∀ fuel c w2,
      select_Done_recv env ctx updates w1 = (Some c, w2) →
      length cs < fuel →
      let stopped := context_cancel env subCtx w2 in
      match c with
      | CaseDone =>
          WaitDealPublished env fuel ctx deal w0
            = mkRes (FailNow (reported Timeout)) stopped logged
      | CaseRecv di =>
          md_ProposalCid di = deal →
          (∀ cl, fatalClass (md_State di) (md_Message di) = Some cl →
             WaitDealPublished env fuel ctx deal w0
               = mkRes (FailNow (reported cl)) stopped logged)
          ∧ (md_State di ∈ PublishedStates →
             WaitDealPublished env fuel ctx deal w0
               = mkRes (Ret tt) stopped (logged ++ [LogComplete di]))
      end.
Proof.
  intros Hctx Hsub Hsel Hall logged.
  assert (Hrun : ∀ fuel,
    WaitDealPublished env fuel ctx deal w0
      = defer (context_cancel env subCtx)
          (publishedLoop env fuel ctx deal updates) w).
  { intros fuel.
    assert (Hm :
      (r <- call (MarketGetDealUpdates env subCtx) ;;
       updates <- require_NoError r ;;
       publishedLoop env fuel ctx deal updates) wa
      = publishedLoop env fuel ctx deal updates w).
    { unfold bind at 1, call. rewrite Hsub. simpl. unfold bind, ret. simpl.
      symmetry. apply res_eta. }
    unfold WaitDealPublished, bind at 1. rewrite Hctx. simpl.
    unfold defer. rewrite Hm.
    destruct (publishedLoop env fuel ctx deal updates w) as [[[]|f|] w' e];
      reflexivity. }
  pose proof (publishedLoop_passes cs 0 w w1 Hsel Hall) as H0.
  rewrite Nat.add_0_r in H0.
  split.
  - rewrite Hrun. unfold defer. rewrite H0. unfold prepend, logged. simpl.
    by rewrite app_nil_r.
  - intros fuel c w2 Hc Hlt stopped.
    destruct fuel as [|fuel]; [lia|].
    replace (S fuel) with (length cs + S (fuel - length cs)) by lia.
    rewrite Hrun.
    pose proof (publishedLoop_passes cs (S (fuel - length cs)) w w1 Hsel Hall)
      as Hk.
    unfold defer. rewrite Hk. unfold prepend.
    destruct c as [|di].
    + rewrite (publishedLoop_Done _ _ _ Hc). simpl.
      by rewrite app_nil_r.
    + intros Heq. split.
      * intros cl Hcl. rewrite (publishedLoop_fatal _ _ _ _ _ Hc Heq Hcl).
        simpl. by rewrite app_nil_r.
      * intros Hin. rewrite (publishedLoop_published _ _ _ _ Hc Heq Hin).
        reflexivity.
Qed.

End Published.

(** ** One evaluation, one pass, and the polling loop *)

Section Polling.
Context {W : Type}.
Variable env : Env W.
Variable ctx : context.Context.
Variable stateChecks : list (DealStateCheck W).
Implicit Types (w : W) (todo : gset cid.Cid) (deal : cid.Cid).

Lemma rangeBody_checks todo deal w di mds ms w1 e1 :
  snapshot env ctx deal w = mkRes (Ret (di, mds, ms)) w1 e1 →
  rangeBody env ctx stateChecks todo deal w
    = prepend e1
        ((done <- checksRange ctx di ms stateChecks ;;
          todo' <- (if done : bool
                    then t_Log (LogWaitComplete di) ;;; ret (todo ∖ {[deal]})
                    else ret todo) ;;
          t_Log (LogDealState (api.DealID di) (api.State di)
                   (md_State (mdsRange mds (api.DealID di)))) ;;;
          ret todo') w1).
Proof.
  unfold snapshot, rangeBody. rewrite !bind_call.
  destruct (ClientGetDealInfo env ctx deal w) as [[di'|e] wa];
    cbv beta iota delta [fst snd];
    [rewrite !bind_require_Ok, !bind_call | by rewrite bind_require_Err].
  destruct (MarketListIncompleteDeals env ctx wa) as [[mds'|e] wb];
    cbv beta iota delta [fst snd];
    [rewrite !bind_require_Ok, !bind_call | by rewrite bind_require_Err].
  destruct (SectorsList env ctx wb) as [[sl|e] wc];
    cbv beta iota delta [fst snd];
    [rewrite !bind_require_Ok | by rewrite bind_require_Err].
  destruct (sloop env ctx (api.DealID di') sl 0%N wc) as [[ms'|f|] wd ed]
    eqn:Hscan.
  - rewrite (bind_Ret _ _ _ _ _ _ Hscan). simpl. rewrite app_nil_r.
    intros [= -> -> -> -> ->].
    by rewrite (bind_Ret _ _ _ _ _ _ Hscan).
  - by rewrite (bind_FailNow _ _ _ _ _ _ Hscan).
  - by rewrite (bind_NoReturn _ _ _ _ _ Hscan).
Qed.

Lemma rangeBody_Ret todo deal w di mds ms w1 e1 (done : bool) w2 e2 :
  snapshot env ctx deal w = mkRes (Ret (di, mds, ms)) w1 e1 →
  checksRange ctx di ms stateChecks w1 = mkRes (Ret done) w2 e2 →
  rangeBody env ctx stateChecks todo deal w
    = mkRes (Ret (if done then todo ∖ {[deal]} else todo)) w2
        (e1 ++ e2 ++ verdictLog di mds done).
Proof.
  intros Hs Hc. rewrite (rangeBody_checks _ _ _ _ _ _ _ _ Hs).
  rewrite (bind_Ret _ _ _ _ _ _ Hc). unfold prepend, verdictLog.
  destruct done; simpl; reflexivity.
Qed.

Lemma rangeBody_FailNow todo deal w di mds ms w1 e1 f w2 e2 :
  snapshot env ctx deal w = mkRes (Ret (di, mds, ms)) w1 e1 →
  checksRange ctx di ms stateChecks w1 = mkRes (FailNow f) w2 e2 →
  rangeBody env ctx stateChecks todo deal w
    = mkRes (FailNow f) w2 (e1 ++ e2).
Proof.
  intros Hs Hc. rewrite (rangeBody_checks _ _ _ _ _ _ _ _ Hs).
  by rewrite (bind_FailNow _ _ _ _ _ _ Hc).
Qed.

Lemma rangeTodo_cons deal (keys : list cid.Cid) todo w :
  rangeTodo env ctx stateChecks (deal :: keys) todo w
    = (todo' <- rangeBody env ctx stateChecks todo deal ;;
       rangeTodo env ctx stateChecks keys todo') w.
Proof. reflexivity. Qed.

Lemma rangeTodo_app (kpre : list cid.Cid) : ∀ keys todo w todo1 w1 e1,
  rangeTodo env ctx stateChecks kpre todo w = mkRes (Ret todo1) w1 e1 →
  rangeTodo env ctx stateChecks (kpre ++ keys) todo w
    = prepend e1 (rangeTodo env ctx stateChecks keys todo1 w1).
Proof.
  induction kpre as [|k kpre IH]; intros keys todo w todo1 w1 e1 H.
  - injection H as <- <- <-. unfold prepend. simpl. apply res_eta.
  - simpl in *. unfold bind in *.
    destruct (rangeBody env ctx stateChecks todo k w) as [[t|f|] wa ea];
      simpl in *; try discriminate.
    destruct (rangeTodo env ctx stateChecks kpre t wa)
      as [[t'|f|] wb eb] eqn:E; simpl in *; try discriminate.
    injection H as <- <- <-.
    rewrite (IH keys _ _ _ _ _ E). unfold prepend. simpl.
    by rewrite app_assoc.
Qed.

Lemma sleep_half w :
  sleep env (time.Second `quot` 2)%Z w
    = mkRes (Ret tt) (time_Sleep env halfSecond w) [Sleep halfSecond].
Proof. reflexivity. Qed.

Lemma waitLoop_empty fuel w : waitLoop env fuel ctx stateChecks ∅ w = mkRes (Ret tt) w [].
Proof. destruct fuel; reflexivity. Qed.

Lemma waitLoop_pass_Ret fuel todo w todo' w1 e1 :
  (0 < size todo)%nat →
  rangeTodo env ctx stateChecks (mapRange env todo w) todo w
    = mkRes (Ret todo') w1 e1 →
  waitLoop env (S fuel) ctx stateChecks todo w
    = prepend (e1 ++ [Sleep halfSecond])
        (waitLoop env fuel ctx stateChecks todo'
           (time_Sleep env halfSecond w1)).
Proof.
  intros Hsz Hp. simpl. destruct (decide (0 < size todo)%nat); [|done].
  rewrite (bind_Ret (λ w0, rangeTodo env ctx stateChecks
                             (mapRange env todo w0) todo w0)
             _ w todo' w1 e1 Hp).
  rewrite (bind_Ret _ _ _ _ _ _ (sleep_half w1)).
  unfold prepend. simpl. by rewrite <- app_assoc.
Qed.

Lemma waitLoop_pass_stop fuel todo w o w1 e1 :
  (0 < size todo)%nat →
  rangeTodo env ctx stateChecks (mapRange env todo w) todo w
    = mkRes o w1 e1 →
  (∀ todo', o ≠ Ret todo') →
  outcome (waitLoop env (S fuel) ctx stateChecks todo w) ≠ Ret tt
  ∧ ∀ f, o = FailNow f →
      waitLoop env (S fuel) ctx stateChecks todo w = mkRes (FailNow f) w1 e1.
Proof.
  intros Hsz Hp Ho. simpl. destruct (decide (0 < size todo)%nat); [|done].
  destruct o as [t|f|]; [by destruct (Ho t)| |].
  - rewrite (bind_FailNow (λ w0, rangeTodo env ctx stateChecks
                                   (mapRange env todo w0) todo w0)
               _ w f w1 e1 Hp).
    split; [discriminate|]. by intros f' [= ->].
  - rewrite (bind_NoReturn (λ w0, rangeTodo env ctx stateChecks
                                    (mapRange env todo w0) todo w0)
               _ w w1 e1 Hp).
    split; discriminate.
Qed.

Lemma waitLoop_ends_with_sleep fuel : ∀ todo w,
  (0 < size todo)%nat →
  outcome (waitLoop env fuel ctx stateChecks todo w) = Ret tt →
  ∃ evs, events (waitLoop env fuel ctx stateChecks todo w)
         = evs ++ [Sleep halfSecond].
Proof.
  induction fuel as [|fuel IH]; intros todo w Hsz Hret.
  - simpl in Hret. destruct (decide (0 < size todo)%nat); [|done].
    discriminate.
  - destruct (rangeTodo env ctx stateChecks (mapRange env todo w) todo w)
      as [[todo'|f|] w1 e1] eqn:Hp.
    + rewrite (waitLoop_pass_Ret _ _ _ _ _ _ Hsz Hp) in *.
      unfold prepend in *. simpl in *.
      destruct (decide (0 < size todo')%nat) as [Hsz'|Hsz'].
      * destruct (IH _ _ Hsz' Hret) as [evs Hevs]. rewrite Hevs.
        exists (e1 ++ [Sleep halfSecond] ++ evs).
        by rewrite <- !app_assoc.
      * assert (todo' = ∅) as ->.
        { apply leibniz_equiv, size_empty_iff. lia. }
        rewrite waitLoop_empty. simpl. exists e1. by rewrite app_nil_r.
    + destruct (waitLoop_pass_stop fuel _ _ _ _ _ Hsz Hp) as [Hn _];
        [discriminate|]. by destruct Hn.
    + destruct (waitLoop_pass_stop fuel _ _ _ _ _ Hsz Hp) as [Hn _];
        [discriminate|]. by destruct Hn.
Qed.

Lemma todo_init (deals : list cid.Cid) : ∀ acc : gset cid.Cid,
  foldl (λ todo deal, {[deal]} ∪ todo) acc deals = list_to_set deals ∪ acc.
Proof.
  induction deals as [|d deals IH]; intros acc; simpl.
  - set_solver.
  - rewrite IH. set_solver.
Qed.

Lemma WaitDealStates_waitLoop fuel (deals : list cid.Cid) w :
  WaitDealStates env fuel ctx deals stateChecks w
    = waitLoop env fuel ctx stateChecks (list_to_set deals) w.
Proof.
  unfold WaitDealStates. rewrite todo_init.
  by replace (list_to_set deals ∪ ∅ : gset cid.Cid)
    with (list_to_set deals : gset cid.Cid) by set_solver.
Qed.

Lemma checksRange_app (cpre : list (DealStateCheck W)) :
  ∀ checks di ms w w1 e1,
  checksRange ctx di ms cpre w = mkRes (Ret true) w1 e1 →
  checksRange ctx di ms (cpre ++ checks) w
    = prepend e1 (checksRange ctx di ms checks w1).
Proof.
  induction cpre as [|c cpre IH]; intros checks di ms w w1 e1 H.
  - cbv in H. injection H as <- <-. unfold prepend. simpl. apply res_eta.
  - simpl in *.
    destruct (c ctx di ms w) as [[b|f|] wa ea] eqn:Hc.
    + rewrite (bind_Ret _ _ _ _ _ _ Hc) in H.
      rewrite (bind_Ret _ _ _ _ _ _ Hc).
      destruct b; simpl in *; [|discriminate].
      destruct (checksRange ctx di ms cpre wa) as [o wb eb] eqn:E.
      simpl in H. injection H as -> <- <-.
      rewrite (IH checks _ _ _ _ _ E). unfold prepend. simpl.
      by rewrite app_assoc.
    + rewrite (bind_FailNow _ _ _ _ _ _ Hc) in H. discriminate.
    + rewrite (bind_NoReturn _ _ _ _ _ Hc) in H. discriminate.
Qed.

Lemma checksRange_FailNow_head (check : DealStateCheck W) checks
    di ms w f w1 e1 :
  check ctx di ms w = mkRes (FailNow f) w1 e1 →
  checksRange ctx di ms (check :: checks) w = mkRes (FailNow f) w1 e1.
Proof. intros H. simpl. by rewrite (bind_FailNow _ _ _ _ _ _ H). Qed.

(** C3 (as the code has it): the sleep of [time.Second / 2], that is
    500 ms, follows every pass that completes, whether or not the pass
    left identities pending.  So a wait over a non-empty list that
    returns has slept as its last action, and only a wait over an empty
    list returns without any pass or sleep. *)
Theorem waitLoop_sleeps_after_every_pass :
  (time.Second `quot` 2)%Z = halfSecond
  ∧ halfSecond = (500 * time.Millisecond)%Z
  ∧ (∀ fuel todo w todo' w1 e1,
       (0 < size todo)%nat →
       rangeTodo env ctx stateChecks (mapRange env todo w) todo w
         = mkRes (Ret todo') w1 e1 →
       waitLoop env (S fuel) ctx stateChecks todo w
         = prepend (e1 ++ [Sleep halfSecond])
             (waitLoop env fuel ctx stateChecks todo'
                (time_Sleep env halfSecond w1))
       ∧ (todo' = ∅ →
          waitLoop env (S fuel) ctx stateChecks todo w
            = mkRes (Ret tt) (time_Sleep env halfSecond w1)
                (e1 ++ [Sleep halfSecond])))
  ∧ (∀ fuel (deals : list cid.Cid) w,
       deals ≠ [] →
       outcome (WaitDealStates env fuel ctx deals stateChecks w) = Ret tt →
       ∃ evs, events (WaitDealStates env fuel ctx deals stateChecks w)
              = evs ++ [Sleep halfSecond])
  ∧ (∀ fuel w,
       WaitDealStates env fuel ctx [] stateChecks w = mkRes (Ret tt) w []).
Proof.
  split; [reflexivity|]. split; [reflexivity|]. split; [|split].
  - intros fuel todo w todo' w1 e1 Hsz Hp.
    pose proof (waitLoop_pass_Ret fuel _ _ _ _ _ Hsz Hp) as Hstep.
    split; [exact Hstep|].
    intros ->. rewrite Hstep, waitLoop_empty. unfold prepend. simpl.
    by rewrite app_nil_r.
  - intros fuel deals w Hne. rewrite WaitDealStates_waitLoop.
    apply waitLoop_ends_with_sleep.
    destruct deals as [|d deals]; [done|].
    assert (Hd : d ∈ (list_to_set (d :: deals) : gset cid.Cid))
      by set_solver.
    destruct (decide (0 < size (list_to_set (d :: deals) : gset cid.Cid))%nat)
      as [|Hz]; [done|].
    assert (Hempty : (list_to_set (d :: deals) : gset cid.Cid) = ∅).
    { apply leibniz_equiv, size_empty_iff. lia. }
    rewrite Hempty in Hd. set_solver.
  - intros fuel w. rewrite WaitDealStates_waitLoop. simpl.
    apply waitLoop_empty.
Qed.

(** C1 (as the code has it): a pass visits the pending identities in the
    order [kpre ++ deal :: kpost] and the evaluations of [kpre] complete.
    If the snapshot then fetched for [deal] is in a fatal state, the
    check list reaches a [DealState] check whose acceptance set does not
    contain that state (every check before it answers true), then the
    whole wait stops in this very pass with the matching classification,
    whatever the other identities' progress and whatever checks follow. *)
Theorem fatal_snapshot_stops_wait fuel todo w (kpre kpost : list cid.Cid)
    deal todo1 w1 e1 di mds ms w2 e2
    (cpre cpost : list (DealStateCheck W)) expect w3 e3 c :
  deal ∈ todo →
  mapRange env todo w = kpre ++ deal :: kpost →
  rangeTodo env ctx stateChecks kpre todo w = mkRes (Ret todo1) w1 e1 →
  snapshot env ctx deal w1 = mkRes (Ret (di, mds, ms)) w2 e2 →
  fatalClass (api.State di) (api.Message di) = Some c →
  stateChecks = cpre ++ DealState expect :: cpost →
  checksRange ctx di ms cpre w2 = mkRes (Ret true) w3 e3 →
  api.State di ∉ expect →
  waitLoop env (S fuel) ctx stateChecks todo w
    = mkRes (FailNow (reported c)) w3 (e1 ++ e2 ++ e3).
Proof.
  intros Hin Hkeys Hpre Hsnap Hc Hchecks Hcpre Hout.
  assert (Hsz : (0 < size todo)%nat).
  { destruct (decide (0 < size todo)%nat) as [|Hz]; [done|].
    assert (todo = ∅) as -> by (apply leibniz_equiv, size_empty_iff; lia).
    set_solver. }
  assert (Hcheck : checksRange ctx di ms stateChecks w2
                   = mkRes (FailNow (reported c)) w3 e3).
  { rewrite Hchecks, (checksRange_app _ _ _ _ _ _ _ Hcpre).
    rewrite (checksRange_FailNow_head _ _ _ _ _ _ _ _
               (DealState_outside_fatal expect ctx di ms w3 c Hout Hc)).
    unfold prepend. simpl. by rewrite app_nil_r. }
  pose proof (rangeBody_FailNow todo1 _ _ _ _ _ _ _ _ _ _ Hsnap Hcheck)
    as Hbody.
  assert (Hpass : rangeTodo env ctx stateChecks (mapRange env todo w) todo w
                  = mkRes (FailNow (reported c)) w3 (e1 ++ e2 ++ e3)).
  { rewrite Hkeys, (rangeTodo_app _ _ _ _ _ _ _ Hpre). simpl.
    rewrite (bind_FailNow _ _ _ _ _ _ Hbody). reflexivity. }
  destruct (waitLoop_pass_stop fuel _ _ _ _ _ Hsz Hpass) as [_ Hf];
    [discriminate|].
  by apply Hf.
Qed.

End Polling.

(** ** Convergence of the polling loop *)

Section Convergence.
Context {W : Type}.
Variable env : Env W.
Variable ctx : context.Context.
Variable stateChecks : list (DealStateCheck W).
Variable deals : list cid.Cid.
Hypothesis Hrange : rangeVisitsEachKeyOnce env.

(** [Inv i w]: a world the wait can be in during pass [i]. *)
Variable Inv : nat → W → Prop.
Variable sat : nat → cid.Cid → bool.
Variable n : nat.

Hypothesis Hbody : ∀ i d w (todo : gset cid.Cid),
  (i < n)%nat → d ∈ deals → Inv i w →
  ∃ w' e,
    rangeBody env ctx stateChecks todo d w
      = mkRes (Ret (if sat i d then todo ∖ {[d]} else todo)) w' e
    ∧ Inv i w'.

Hypothesis Hsleep : ∀ i w,
  (i < n)%nat → Inv i w → Inv (S i) (time_Sleep env halfSecond w).

Lemma pendingAfter_0 i (todo : gset cid.Cid) : pendingAfter sat i 0 todo = todo.
Proof.
  unfold pendingAfter. apply set_eq. intros d.
  rewrite elem_of_filter. simpl. tauto.
Qed.

Lemma pendingAfter_S i k (todo : gset cid.Cid) :
  pendingAfter sat i (S k) todo
    = pendingAfter sat (S i) k (pendingAfter sat i 1 todo).
Proof.
  unfold pendingAfter. apply set_eq. intros d.
  rewrite !elem_of_filter. simpl.
  rewrite !andb_true_iff. tauto.
Qed.

Lemma pendingAfter_subseteq i k (todo : gset cid.Cid) :
  pendingAfter sat i k todo ⊆ todo.
Proof. unfold pendingAfter. intros d. rewrite elem_of_filter. tauto. Qed.

Lemma rangeTodo_inv i (keys : list cid.Cid) : ∀ (todo : gset cid.Cid) w,
  (i < n)%nat → (∀ d, d ∈ keys → d ∈ deals) → Inv i w →
  ∃ w' e,
    rangeTodo env ctx stateChecks keys todo w
      = mkRes (Ret (todo ∖ list_to_set (filter (λ d, sat i d = true) keys)))
          w' e
    ∧ Inv i w'.
Proof.
  induction keys as [|d keys IH]; intros todo w Hi Hsub Hinv.
  - exists w, []. split; [|done]. simpl. unfold ret. f_equal. f_equal.
    set_solver.
  - destruct (Hbody i d w todo Hi) as (w1 & e1 & Hb & Hinv1);
      [apply Hsub; left | done |].
    destruct (IH (if sat i d then todo ∖ {[d]} else todo) w1 Hi)
      as (w2 & e2 & Hr & Hinv2); [intros d' Hd'; apply Hsub; by right|done|].
    exists w2, (e1 ++ e2). split; [|done].
    rewrite rangeTodo_cons.
    rewrite (bind_Ret_eq _ (λ t, rangeTodo env ctx stateChecks keys t)
               _ _ _ _ _ _ _ Hb Hr).
    f_equal. f_equal. rewrite filter_cons.
    destruct (sat i d) eqn:Es.
    + rewrite decide_True by done. set_solver.
    + rewrite decide_False by congruence. done.
Qed.

Lemma pass_inv i (todo : gset cid.Cid) w :
  (i < n)%nat → todo ⊆ list_to_set deals → Inv i w →
  ∃ w' e,
    rangeTodo env ctx stateChecks (mapRange env todo w) todo w
      = mkRes (Ret (pendingAfter sat i 1 todo)) w' e
    ∧ Inv i w'.
Proof.
  intros Hi Hsub Hinv.
  assert (Hkeys : ∀ d, d ∈ mapRange env todo w ↔ d ∈ todo).
  { intros d. rewrite (Hrange todo w). apply elem_of_elements. }
  destruct (rangeTodo_inv i (mapRange env todo w) todo w Hi)
    as (w' & e & Hr & Hinv'); [|done|].
  { intros d Hd. apply Hkeys in Hd. apply Hsub in Hd.
    by apply elem_of_list_to_set in Hd. }
  exists w', e. split; [|done]. rewrite Hr. f_equal. f_equal.
  unfold pendingAfter. apply set_eq. intros d.
  rewrite elem_of_difference, elem_of_list_to_set, list_elem_of_filter,
    elem_of_filter, Hkeys.
  simpl. rewrite andb_true_r, negb_true_iff.
  destruct (sat i d); intuition congruence.
Qed.

Lemma waitLoop_passes k : ∀ i (todo : gset cid.Cid) w,
  (i + k ≤ n)%nat → todo ⊆ list_to_set deals → Inv i w →
  (∀ j, (j < k)%nat → pendingAfter sat i j todo ≠ ∅) →
  ∃ w' e,
    Inv (i + k) w'
    ∧ ∀ fuel,
        waitLoop env (k + fuel) ctx stateChecks todo w
          = prepend e
              (waitLoop env fuel ctx stateChecks
                 (pendingAfter sat i k todo) w').
Proof.
  induction k as [|k IH]; intros i todo w Hik Hsub Hinv Hne.
  - exists w, []. rewrite pendingAfter_0, Nat.add_0_r. split; [done|].
    intros fuel. unfold prepend. simpl. apply res_eta.
  - assert (Hsz : (0 < size todo)%nat).
    { destruct (decide (0 < size todo)%nat) as [|Hz]; [done|].
      destruct (Hne 0%nat); [lia|]. rewrite pendingAfter_0.
      apply leibniz_equiv, size_empty_iff. lia. }
    destruct (pass_inv i todo w) as (w1 & e1 & Hp & Hinv1); [lia|done..|].
    destruct (IH (S i) (pendingAfter sat i 1 todo)
                (time_Sleep env halfSecond w1))
      as (w2 & e2 & Hinv2 & Hl).
    + lia.
    + etrans; [apply pendingAfter_subseteq|done].
    + apply Hsleep; [lia|done].
    + intros j Hj. rewrite <- (pendingAfter_S i j todo). apply Hne. lia.
    + exists w2, (e1 ++ [Sleep halfSecond] ++ e2).
      replace (i + S k)%nat with (S i + k)%nat by lia. split; [done|].
      intros fuel. change (S k + fuel)%nat with (S (k + fuel)).
      rewrite (waitLoop_pass_Ret _ _ _ _ _ _ _ _ _ Hsz Hp), Hl.
      rewrite (pendingAfter_S i k todo). unfold prepend. simpl.
      by rewrite <- !app_assoc.
Qed.

End Convergence.

Section ConvergenceOfChecks.
Context {W : Type}.
Variable env : Env W.
Variable ctx : context.Context.
Variable stateChecks : list (DealStateCheck W).
Variable deals : list cid.Cid.
Variable Inv : nat → W → Prop.
Variable snap : nat → cid.Cid →
                api.DealInfo * list MinerDeal * abi.SectorNumber.
Variable answers : nat → cid.Cid → list bool.
Variable n : nat.

Lemma checksRange_answers (P : W → Prop) di ms
    (checks : list (DealStateCheck W)) (bs : list bool) :
  Forall2 (λ (check : DealStateCheck W) (b : bool), ∀ w, P w →
             ∃ w' e, check ctx di ms w = mkRes (Ret b) w' e ∧ P w')
    checks bs →
  ∀ w, P w →
  ∃ w' e, checksRange ctx di ms checks w = mkRes (Ret (allTrue bs)) w' e
          ∧ P w'.
Proof.
  induction 1 as [|check b checks bs Hc _ IH]; intros w Hw.
  - exists w, []. done.
  - destruct (Hc w Hw) as (w1 & e1 & Hrun & Hw1).
    destruct b.
    + destruct (IH w1 Hw1) as (w2 & e2 & Hrest & Hw2).
      exists w2, (e1 ++ e2). split; [|done]. simpl checksRange.
      by rewrite (bind_Ret_eq _ _ _ _ _ _ _ _ _ Hrun Hrest).
    + exists w1, (e1 ++ []). split; [|done]. simpl checksRange.
      by rewrite (bind_Ret_eq _ _ _ _ _ _ (Ret false) w1 [] Hrun).
Qed.

Lemma waitLoop_0_pending (todo : gset cid.Cid) w :
  todo ≠ ∅ → waitLoop env 0 ctx stateChecks todo w = mkRes NoReturn w [].
Proof.
  intros Hne. simpl. destruct (decide (0 < size todo)%nat) as [|Hz]; [done|].
  destruct Hne. apply leibniz_equiv, size_empty_iff. lia.
Qed.

(** C2: the identities [deals] are watched through [n] passes in which
    every snapshot is fetched and every check answers ([answers i d] are
    the answers for identity [d] in pass [i]); every identity has a pass
    before [n] in which all checks answer true, and one identity has
    none before the last pass.  Then the wait returns without error,
    after exactly [n] passes and not with fewer; and after any [k ≤ n]
    passes the pending set holds exactly the identities for which no
    pass so far had all checks true together, so each identity leaves
    in its own pass. *)
Theorem WaitDealStates_converges w0 :
  rangeVisitsEachKeyOnce env →
  Inv 0%nat w0 →
  (∀ i d w, (i < n)%nat → d ∈ deals → Inv i w →
     ∃ w' e, snapshot env ctx d w = mkRes (Ret (snap i d)) w' e ∧ Inv i w') →
  (∀ i d, (i < n)%nat → d ∈ deals →
     Forall2 (λ (check : DealStateCheck W) (b : bool), ∀ w, Inv i w →
                ∃ w' e, check ctx (snap i d).1.1 (snap i d).2 w
                          = mkRes (Ret b) w' e
                        ∧ Inv i w')
       stateChecks (answers i d)) →
  (∀ i w, (i < n)%nat → Inv i w → Inv (S i) (time_Sleep env halfSecond w)) →
  let sat := λ i d, allTrue (answers i d) in
  (∀ d, d ∈ deals → ∃ i, (i < n)%nat ∧ sat i d = true) →
  (∃ d, d ∈ deals ∧ ∀ i, (S i < n)%nat → sat i d = false) →
  (∀ fuel, (n ≤ fuel)%nat →
     outcome (WaitDealStates env fuel ctx deals stateChecks w0) = Ret tt
     ∧ Inv n (world (WaitDealStates env fuel ctx deals stateChecks w0)))
  ∧ (∀ fuel, (fuel < n)%nat →
       outcome (WaitDealStates env fuel ctx deals stateChecks w0) = NoReturn)
  ∧ (∀ k, (k ≤ n)%nat →
       ∃ w' e,
         Inv k w'
         ∧ ∀ fuel,
             WaitDealStates env (k + fuel) ctx deals stateChecks w0
               = prepend e
                   (waitLoop env fuel ctx stateChecks
                      (pendingAfter sat 0 k (list_to_set deals)) w')).
Proof.
  intros Hrange Hinv0 Hsnap Hchk Hsleep sat Hall Hlast.
  assert (Hbody : ∀ i d w (todo : gset cid.Cid),
    (i < n)%nat → d ∈ deals → Inv i w →
    ∃ w' e,
      rangeBody env ctx stateChecks todo d w
        = mkRes (Ret (if sat i d then todo ∖ {[d]} else todo)) w' e
      ∧ Inv i w').
  { intros i d w todo Hi Hd Hw.
    destruct (Hsnap i d w Hi Hd Hw) as (w1 & e1 & Hs & Hw1).
    destruct (snap i d) as [[di mds] ms] eqn:Esnap.
    pose proof (Hchk i d Hi Hd) as Hf. rewrite Esnap in Hf. simpl in Hf.
    destruct (checksRange_answers (Inv i) di ms _ _ Hf w1 Hw1)
      as (w2 & e2 & Hc & Hw2).
    exists w2, (e1 ++ e2 ++ verdictLog di mds (allTrue (answers i d))).
    split; [|done].
    by rewrite (rangeBody_Ret env ctx stateChecks todo d w
                  _ _ _ _ _ _ _ _ Hs Hc). }
  assert (Hpending : ∀ j, (j < n)%nat →
    pendingAfter sat 0 j (list_to_set deals) ≠ ∅).
  { intros j Hj Hempty. destruct Hlast as (d & Hd & Hnot).
    assert (Hin : d ∈ pendingAfter sat 0 j (list_to_set deals)).
    { unfold pendingAfter. apply elem_of_filter. split; [|set_solver].
      apply forallb_forall. intros i Hi. apply in_seq in Hi.
      rewrite Hnot by lia. done. }
    rewrite Hempty in Hin. set_solver. }
  assert (Hdone : pendingAfter sat 0 n (list_to_set deals) = ∅).
  { apply set_eq. intros d. unfold pendingAfter. rewrite elem_of_filter.
    split; [|set_solver]. intros [Hf Hd].
    apply elem_of_list_to_set in Hd. destruct (Hall d Hd) as (i & Hi & Hs).
    rewrite forallb_forall in Hf. specialize (Hf i).
    rewrite Hs in Hf. discriminate Hf. apply in_seq. lia. }
  assert (Hk : ∀ k, (k ≤ n)%nat →
    ∃ w' e,
      Inv k w'
      ∧ ∀ fuel,
          WaitDealStates env (k + fuel) ctx deals stateChecks w0
            = prepend e
                (waitLoop env fuel ctx stateChecks
                   (pendingAfter sat 0 k (list_to_set deals)) w')).
  { intros k Hkn.
    destruct (waitLoop_passes env ctx stateChecks deals Hrange Inv sat n
                Hbody Hsleep k 0%nat (list_to_set deals) w0)
      as (w' & e & Hw' & Hl); [lia|done|done| |].
    - intros j Hj. apply Hpending. lia.
    - exists w', e. split; [done|]. intros fuel.
      by rewrite WaitDealStates_waitLoop. }
  split; [|split; [|exact Hk]].
  - intros fuel Hfuel. destruct (Hk n) as (w' & e & Hw' & Hl); [lia|].
    replace fuel with (n + (fuel - n))%nat by lia.
    rewrite Hl, Hdone, waitLoop_empty. done.
  - intros fuel Hfuel. destruct (Hk fuel) as (w' & e & Hw' & Hl); [lia|].
    replace fuel with (fuel + 0)%nat at 1 by lia.
    rewrite Hl, waitLoop_0_pending by (apply Hpending; lia). done.
Qed.

End ConvergenceOfChecks.

(** ** The polling loop and its context *)

Section SameAnswers.
Context {W : Type}.
Variable env : Env W.
Variable stateChecks : list (DealStateCheck W).
Variables ctx ctx' : context.Context.
Hypothesis Hsame : sameAnswers env stateChecks ctx ctx'.

Lemma call_same {A} (q q' : W → Reply A * W) w :
  q w = q' w → call q w = call q' w.
Proof. intros H. unfold call. by rewrite H. Qed.

Lemma sloop_same id (sl : list abi.SectorNumber) : ∀ ms w,
  sloop env ctx id sl ms w = sloop env ctx' id sl ms w.
Proof.
  destruct Hsame as (_ & _ & _ & Hstatus & _).
  induction sl as [|s sl IH]; intros ms w; [reflexivity|]. simpl.
  apply bind_ext; [by apply call_same|]. intros r w1.
  apply bind_ext; [done|]. intros si w2.
  destruct (dealsRange (api.Deals si) id); [done|apply IH].
Qed.

Lemma checksRange_same di ms (checks : list (DealStateCheck W)) :
  Forall (λ check : DealStateCheck W,
            ∀ di ms w, check ctx di ms w = check ctx' di ms w) checks →
  ∀ w, checksRange ctx di ms checks w = checksRange ctx' di ms checks w.
Proof.
  induction 1 as [|check checks Hc _ IH]; intros w; [reflexivity|]. simpl.
  apply bind_ext; [apply Hc|]. intros b w1.
  destruct b; simpl; [apply IH|done].
Qed.

Lemma rangeBody_same (todo : gset cid.Cid) deal w :
  rangeBody env ctx stateChecks todo deal w
    = rangeBody env ctx' stateChecks todo deal w.
Proof.
  destruct Hsame as (Hdeal & Hmds & Hsl & _ & Hchecks). unfold rangeBody.
  apply bind_ext; [by apply call_same|]. intros r1 w1.
  apply bind_ext; [done|]. intros di w2.
  apply bind_ext; [by apply call_same|]. intros r2 w3.
  apply bind_ext; [done|]. intros mds w4.
  apply bind_ext; [by apply call_same|]. intros r3 w5.
  apply bind_ext; [done|]. intros sl w6.
  apply bind_ext; [apply sloop_same|]. intros ms w7.
  apply bind_ext; [by apply checksRange_same|]. done.
Qed.

Lemma rangeTodo_same (keys : list cid.Cid) : ∀ (todo : gset cid.Cid) w,
  rangeTodo env ctx stateChecks keys todo w
    = rangeTodo env ctx' stateChecks keys todo w.
Proof.
  induction keys as [|deal keys IH]; intros todo w; [reflexivity|].
  rewrite !rangeTodo_cons.
  apply bind_ext; [apply rangeBody_same|]. intros todo' w1. apply IH.
Qed.

Lemma waitLoop_same fuel : ∀ (todo : gset cid.Cid) w,
  waitLoop env fuel ctx stateChecks todo w
    = waitLoop env fuel ctx' stateChecks todo w.
Proof.
  induction fuel as [|fuel IH]; intros todo w; [reflexivity|]. simpl.
  destruct (decide (0 < size todo)%nat); [|done].
  apply bind_ext; [apply rangeTodo_same|]. intros todo' w1.
  apply bind_ext; [done|]. intros _ w2. apply IH.
Qed.

End SameAnswers.

Section NoCancellation.
Context {W : Type}.
Variable env : Env W.
Variable ctx : context.Context.
Variable stateChecks : list (DealStateCheck W).
Variable deals : list cid.Cid.
Variable Inv : W → Prop.
Variable stuck : cid.Cid.

Hypothesis Hrange : rangeVisitsEachKeyOnce env.
Hypothesis Hstuck : stuck ∈ deals.
Hypothesis Hothers : ∀ d w (todo : gset cid.Cid),
  d ∈ deals → d ≠ stuck → Inv w →
  ∃ (done : bool) w' e,
    rangeBody env ctx stateChecks todo d w
      = mkRes (Ret (if done then todo ∖ {[d]} else todo)) w' e
    ∧ Inv w'.
Hypothesis Hnever : ∀ w (todo : gset cid.Cid),
  Inv w →
  ∃ w' e,
    rangeBody env ctx stateChecks todo stuck w = mkRes (Ret todo) w' e
    ∧ Inv w'.
Hypothesis Hsleep : ∀ w, Inv w → Inv (time_Sleep env halfSecond w).

Lemma rangeTodo_stuck (keys : list cid.Cid) : ∀ (todo : gset cid.Cid) w,
  (∀ d, d ∈ keys → d ∈ deals) → stuck ∈ todo → Inv w →
  ∃ (todo' : gset cid.Cid) w' e,
    rangeTodo env ctx stateChecks keys todo w = mkRes (Ret todo') w' e
    ∧ stuck ∈ todo' ∧ todo' ⊆ todo ∧ Inv w'.
Proof.
  induction keys as [|d keys IH]; intros todo w Hsub Hin Hw.
  - exists todo, w, []. done.
  - assert (Hstep : ∃ (todo1 : gset cid.Cid) w1 e1,
      rangeBody env ctx stateChecks todo d w = mkRes (Ret todo1) w1 e1
      ∧ stuck ∈ todo1 ∧ todo1 ⊆ todo ∧ Inv w1).
    { destruct (decide (d = stuck)) as [->|Hne].
      - destruct (Hnever w todo Hw) as (w1 & e1 & Hb & Hw1).
        exists todo, w1, e1. done.
      - destruct (Hothers d w todo) as (b & w1 & e1 & Hb & Hw1);
          [apply Hsub; left|done..|].
        exists (if b then todo ∖ {[d]} else todo), w1, e1.
        destruct b; repeat split; try done; set_solver. }
    destruct Hstep as (todo1 & w1 & e1 & Hb & Hin1 & Hsub1 & Hw1).
    destruct (IH todo1 w1) as (todo2 & w2 & e2 & Hr & Hin2 & Hsub2 & Hw2);
      [intros d' Hd'; apply Hsub; by right|done..|].
    exists todo2, w2, (e1 ++ e2). rewrite rangeTodo_cons.
    rewrite (bind_Ret_eq _ (λ t, rangeTodo env ctx stateChecks keys t)
               _ _ _ _ _ _ _ Hb Hr).
    repeat split; try done. set_solver.
Qed.

Lemma waitLoop_stuck fuel : ∀ (todo : gset cid.Cid) w,
  stuck ∈ todo → todo ⊆ list_to_set deals → Inv w →
  outcome (waitLoop env fuel ctx stateChecks todo w) = NoReturn
  ∧ Inv (world (waitLoop env fuel ctx stateChecks todo w)).
Proof.
  induction fuel as [|fuel IH]; intros todo w Hin Hsub Hw.
  - rewrite waitLoop_0_pending by set_solver. done.
  - assert (Hsz : (0 < size todo)%nat).
    { destruct (decide (0 < size todo)%nat) as [|Hz]; [done|].
      assert (todo = ∅) as -> by (apply leibniz_equiv, size_empty_iff; lia).
      set_solver. }
    destruct (rangeTodo_stuck (mapRange env todo w) todo w)
      as (todo' & w' & e & Hp & Hin' & Hsub' & Hw'); [|done..|].
    { intros d Hd. rewrite (Hrange todo w) in Hd.
      apply elem_of_elements in Hd. apply Hsub in Hd.
      by apply elem_of_list_to_set in Hd. }
    rewrite (waitLoop_pass_Ret _ _ _ _ _ _ _ _ _ Hsz Hp). unfold prepend.
    simpl. apply IH; [done| |by apply Hsleep]. set_solver.
Qed.

(** C9: [WaitDealStates] hands its context to the queries and to the
    checks and never looks at it.  If every evaluation returns and one
    tracked identity is never found done, the wait has not returned after
    any number of passes; and it runs the same under any other context
    that the queries and the checks answer alike, a cancelled or expired
    one included: no state of the context ends the wait. *)
Theorem WaitDealStates_never_returns w0 :
  Inv w0 →
  ∀ fuel,
    outcome (WaitDealStates env fuel ctx deals stateChecks w0) = NoReturn
    ∧ Inv (world (WaitDealStates env fuel ctx deals stateChecks w0))
    ∧ ∀ ctx',
        sameAnswers env stateChecks ctx ctx' →
        WaitDealStates env fuel ctx' deals stateChecks w0
          = WaitDealStates env fuel ctx deals stateChecks w0.
Proof.
  intros Hw0 fuel.
  assert (Hrun :
    outcome (WaitDealStates env fuel ctx deals stateChecks w0) = NoReturn
    ∧ Inv (world (WaitDealStates env fuel ctx deals stateChecks w0))).
  { rewrite WaitDealStates_waitLoop.
    apply waitLoop_stuck; [|done..]. by apply elem_of_list_to_set. }
  destruct Hrun as [Hout Hinv]. split; [exact Hout|]. split; [exact Hinv|].
  intros ctx' Hsame. rewrite !WaitDealStates_waitLoop.
  symmetry. by apply waitLoop_same.
Qed.

End NoCancellation.

(** ** Concrete runs *)


Lemma DealState_membership_witness :
  DealState (W := Fixture.World) [StorageDealActive] ctx0
    (di_of "D2" StorageDealError "insufficient funds" 9%N) 0%N Fixture.start
  = mkRes (FailNow (reported (FatalErrored "insufficient funds")))
      Fixture.start [].
Proof.
  assert (Hout : StorageDealError ∉ [StorageDealActive]).
  { intros H. apply list_elem_of_singleton in H. discriminate H. }
  exact (proj2 (proj2 (proj2 (DealState_membership (W := Fixture.World)
           [StorageDealActive] ctx0
           (di_of "D2" StorageDealError "insufficient funds" 9%N)
           0%N Fixture.start)) Hout)).
Defined.

Lemma DealOn_true_callback_once_witness :
  DealOn (W := Fixture.World) logCallback [StorageDealSealing; StorageDealSealing] ctx0
    (di_of "D1" StorageDealSealing "" 7%N) 0%N Fixture.start
  = mkRes (Ret true) Fixture.start [LogSectorState "callback"].
Proof.
  assert (Hin : StorageDealSealing ∈ [StorageDealSealing; StorageDealSealing]).
  { left. }
  exact (proj1 (DealOn_true_callback_once (W := Fixture.World) logCallback
           [StorageDealSealing; StorageDealSealing] ctx0
           (di_of "D1" StorageDealSealing "" 7%N) 0%N Fixture.start) Hin).
Defined.

Lemma DealSectorState_none_or_equal_witness :
  DealSectorState (Fixture.env fxSectors) "Proving" ctx0
    (di_of "D1" StorageDealActive "" 7%N) 0%N Fixture.start
  = mkRes (Ret false) Fixture.start [].
Proof.
  exact (proj1 (DealSectorState_none_or_equal (Fixture.env fxSectors)
           "Proving" ctx0 (di_of "D1" StorageDealActive "" 7%N) 0%N
           Fixture.start) eq_refl).
Defined.

Lemma statusSectors_table w :
  statusTable (Fixture.env fxSectors) ctx0 [0%N; 3%N] w statusSectors.
Proof.
  intros s Hs. apply elem_of_cons in Hs as [->|Hs]; [reflexivity|].
  apply list_elem_of_singleton in Hs as ->. reflexivity.
Defined.

Lemma sloop_first_containing_witness :
  sloop (Fixture.env fxSectors) ctx0 9%N [0%N; 3%N] 0%N Fixture.start
  = mkRes (Ret 3%N) Fixture.start [].
Proof.
  refine (proj2 (sloop_first_containing (Fixture.env fxSectors) ctx0
            [0%N; 3%N] Fixture.start statusSectors 9%N
            (statusSectors_table _)) [0%N] 3%N [] eq_refl _ _).
  - intros s Hs. apply list_elem_of_singleton in Hs as ->.
    intros H. vm_compute in H.
    repeat (apply elem_of_cons in H as [H|H]; [discriminate H|]).
    by apply elem_of_nil in H.
  - left.
Defined.

Lemma sector_zero_reads_as_none_witness :
  (ms <- sloop (Fixture.env fxSectors) ctx0 7%N [0%N; 3%N] 0%N ;;
   DealSectorState (Fixture.env fxSectors) "Proving" ctx0
     (di_of "D1" StorageDealActive "" 7%N) ms) Fixture.start
  = mkRes (Ret false) Fixture.start [].
Proof.
  refine (proj2 (sector_zero_reads_as_none (Fixture.env fxSectors) ctx0
            [] [3%N] Fixture.start statusSectors
            (di_of "D1" StorageDealActive "" 7%N) "Proving"
            (statusSectors_table _) _ _ eq_refl)).
  - intros s Hs. by apply elem_of_nil in Hs.
  - right. left.
Defined.

Lemma waitLoop_sleeps_after_every_pass_witness :
  ∃ evs,
    events (WaitDealStates (Fixture.env fxSectors) 1 ctx0 ["D1"]
              [DealState [StorageDealActive]] Fixture.start)
    = evs ++ [Sleep halfSecond].
Proof.
  refine (proj1 (proj2 (proj2 (proj2 (waitLoop_sleeps_after_every_pass
            (Fixture.env fxSectors) ctx0 [DealState [StorageDealActive]]))))
            1%nat ["D1"] Fixture.start _ _).
  - discriminate.
  - vm_compute. reflexivity.
Defined.

(** C3, refuted as stated: one deal, already Active when the first pass
    looks at it.  That pass empties the pending set, and the wait still
    sleeps 500 ms before it returns. *)
Lemma sleep_after_emptying_pass :
  WaitDealStates (Fixture.env fxSectors) 1 ctx0 ["D1"]
    [DealState [StorageDealActive]] Fixture.start
  = mkRes (Ret tt) (Fixture.mkWorld 1 [] [])
      [LogWaitComplete (di_of "D1" StorageDealActive "" 7%N);
       LogDealState 7%N StorageDealActive StorageDealUnknown;
       Sleep 500000000%Z].
Proof. vm_compute. reflexivity. Qed.

Lemma fixture_range fx : rangeVisitsEachKeyOnce (Fixture.env fx).
Proof. intros todo w. reflexivity. Qed.

Lemma fatal_snapshot_stops_wait_witness :
  waitLoop (Fixture.env fxMixed) 1 ctx0 checksSealingThenActive
    (list_to_set ["D1"; "D2"]) Fixture.start
  = mkRes (FailNow (reported (FatalErrored "insufficient funds")))
      Fixture.start
      [LogSectorState "callback";
       LogDealState 7%N StorageDealSealing StorageDealUnknown].
Proof.
  refine (fatal_snapshot_stops_wait (Fixture.env fxMixed) ctx0
            checksSealingThenActive 0 (list_to_set ["D1"; "D2"])
            Fixture.start ["D1"] [] "D2" (list_to_set ["D1"; "D2"])
            Fixture.start
            [LogSectorState "callback";
             LogDealState 7%N StorageDealSealing StorageDealUnknown]
            (di_of "D2" StorageDealError "insufficient funds" 9%N) [] 0%N
            Fixture.start []
            [DealOn logCallback [StorageDealSealing]] []
            [StorageDealActive] Fixture.start []
            (FatalErrored "insufficient funds") _ _ _ _ eq_refl eq_refl _ _).
  - apply elem_of_list_to_set. right. left.
  - vm_compute. reflexivity.
  - vm_compute. reflexivity.
  - vm_compute. reflexivity.
  - vm_compute. reflexivity.
  - intros H. apply list_elem_of_singleton in H. discriminate H.
Defined.

Lemma WaitDealStates_converges_witness :
  outcome (WaitDealStates (Fixture.env fxTwo) 3 ctx0 ["D1"; "D2"]
             checksSealingThenActive Fixture.start) = Ret tt
  ∧ outcome (WaitDealStates (Fixture.env fxTwo) 2 ctx0 ["D1"; "D2"]
               checksSealingThenActive Fixture.start) = NoReturn.
Proof.
  assert (Hcases : ∀ i d, (i < 3)%nat → d ∈ ["D1"; "D2"] →
            (i = 0 ∨ i = 1 ∨ i = 2)%nat ∧ (d = "D1" ∨ d = "D2")).
  { intros i d Hi Hd. split; [lia|].
    apply elem_of_cons in Hd as [->|Hd]; [by left|].
    apply list_elem_of_singleton in Hd as ->. by right. }
  destruct (WaitDealStates_converges (Fixture.env fxTwo) ctx0
              checksSealingThenActive ["D1"; "D2"]
              (λ i w, Fixture.clock w = i) snapTwo answersTwo 3
              Fixture.start (fixture_range fxTwo) eq_refl)
    as (Hret & Hnot & _).
  - intros i d [c inbox canc] Hi Hd Hw. simpl in Hw. subst c.
    exists (Fixture.mkWorld i inbox canc), []. split; reflexivity.
  - intros i d Hi Hd. destruct (Hcases i d Hi Hd) as [Hi' Hd'].
    unfold checksSealingThenActive, answersTwo.
    destruct Hi' as [->|[->| ->]]; destruct Hd' as [->| ->];
      (apply List.Forall2_cons;
        [|apply List.Forall2_cons; [|apply List.Forall2_nil]]);
      intros [c inbox canc] Hw; simpl in Hw; subst c;
      eexists _, _; split; reflexivity.
  - intros i [c inbox canc] Hi Hw. simpl in *. by subst c.
  - intros d Hd. destruct (Hcases 0%nat d ltac:(lia) Hd) as [_ [->| ->]].
    + exists 1%nat. split; [lia|reflexivity].
    + exists 2%nat. split; [lia|reflexivity].
  - exists "D2". split; [right; left|].
    intros i Hi. assert (i = 0 ∨ i = 1)%nat as [->| ->] by lia; reflexivity.
  - split; [apply Hret | apply Hnot]; lia.
Defined.

Lemma WaitDealPublished_classifies_witness :
  WaitDealPublished (Fixture.env fxSectors) 3 ctx0 "D1" publishingWorld
  = mkRes (Ret tt) (Fixture.mkWorld 0 [] [1%nat])
      [LogState StorageDealPublishing;
       LogComplete (md_of "D1" StorageDealSealing)].
Proof.
  refine (proj2 (proj2 (WaitDealPublished_classifies (Fixture.env fxSectors)
            ctx0 "D1" 0%nat publishingWorld 1%nat publishingWorld
            publishingWorld
            [CaseRecv (md_of "D0" StorageDealActive);
             CaseRecv (md_of "D1" StorageDealPublishing)]
            (Fixture.mkWorld 0 [CaseRecv (md_of "D1" StorageDealSealing)] [])
            eq_refl eq_refl _ _)
            3%nat (CaseRecv (md_of "D1" StorageDealSealing))
            (Fixture.mkWorld 0 [] []) eq_refl _ eq_refl) _).
  - eapply selects_cons; [reflexivity|].
    eapply selects_cons; [reflexivity|]. apply selects_nil.
  - apply List.Forall_cons; [|apply List.Forall_cons; [|apply List.Forall_nil]].
    + left. discriminate.
    + right. simpl. rewrite FatalStates_spec, PublishedStates_spec.
      split; intros H; repeat (destruct H as [H|H]; try discriminate H).
  - simpl. lia.
  - apply PublishedStates_spec. simpl. tauto.
Defined.

Lemma WaitDealStates_never_returns_witness :
  select_Done_recv (Fixture.env fxMixed) ctx0 0%nat cancelledWorld
    = (Some CaseDone, cancelledWorld)
  ∧ outcome (WaitDealStates (Fixture.env fxMixed) 25 ctx0 ["D1"]
               [DealState [StorageDealActive]] cancelledWorld) = NoReturn
  ∧ WaitDealStates (Fixture.env fxMixed) 25 5%nat ["D1"]
      [DealState [StorageDealActive]] cancelledWorld
    = WaitDealStates (Fixture.env fxMixed) 25 ctx0 ["D1"]
        [DealState [StorageDealActive]] cancelledWorld.
Proof.
  split; [reflexivity|].
  destruct (WaitDealStates_never_returns (Fixture.env fxMixed) ctx0
              [DealState [StorageDealActive]] ["D1"] (λ _, True) "D1"
              (fixture_range fxMixed)) with (w0 := cancelledWorld)
                                            (fuel := 25%nat)
    as (Hnever & _ & Hsame).
  - left.
  - intros d w todo Hd Hne. apply list_elem_of_singleton in Hd. done.
  - intros w todo _.
    exists w, [LogDealState 7%N StorageDealSealing StorageDealUnknown].
    split; [reflexivity|done].
  - done.
  - exact I.
  - split; [exact Hnever|]. apply Hsame.
    repeat split. apply List.Forall_cons; [done|apply List.Forall_nil].
Defined.

(** C1, refuted as stated.  Deal [D2] is reported in state Error in every
    pass.  With a sector check in front of the state check the wait never
    stops, neither in the pass that fetched the fatal snapshot nor later:
    the sector check answers false and the state check is not reached.
    And a state check that accepts Error lets the wait return. *)
Lemma fatal_snapshot_without_stop :
  (∀ fuel,
     outcome (WaitDealStates (Fixture.env fxError) fuel ctx0 ["D2"]
                [DealSectorState (Fixture.env fxError) "Proving";
                 DealState [StorageDealActive]] Fixture.start) = NoReturn)
  ∧ events (WaitDealStates (Fixture.env fxError) 2 ctx0 ["D2"]
              [DealSectorState (Fixture.env fxError) "Proving";
               DealState [StorageDealActive]] Fixture.start)
    = [LogDealState 9%N StorageDealError StorageDealUnknown;
       Sleep 500000000%Z;
       LogDealState 9%N StorageDealError StorageDealUnknown;
       Sleep 500000000%Z]
  ∧ outcome (WaitDealStates (Fixture.env fxError) 1 ctx0 ["D2"]
               [DealState [StorageDealError]] Fixture.start) = Ret tt.
Proof.
  split; [|split; vm_compute; reflexivity].
  intros fuel. rewrite WaitDealStates_waitLoop.
  refine (proj1 (waitLoop_stuck (Fixture.env fxError) ctx0 _ ["D2"]
            (λ _, True) "D2" (fixture_range fxError) _ _ _ _ fuel
            (list_to_set ["D2"]) Fixture.start _ _ I)).
  - left.
  - intros d w todo Hd Hne. apply list_elem_of_singleton in Hd. done.
  - intros w todo _.
    exists w, [LogDealState 9%N StorageDealError StorageDealUnknown].
    split; [reflexivity|done].
  - done.
  - apply elem_of_list_to_set. left.
  - done.
Qed.

(** * Further properties of the harness *)

(** ** The acceptance lists are sets *)

Section ListsAsSets.
Context {W : Type}.

(** X7: the states handed to [DealState] and to [DealOn] are used as a
    set: two lists with the same members give the same check, whatever
    their order and repetitions. *)
Theorem state_lists_are_sets (expect expect' : list StorageDealStatus)
    (cb : M W unit) ctx di sn w :
  (∀ st, st ∈ expect ↔ st ∈ expect') →
  DealState (W := W) expect ctx di sn w = DealState expect' ctx di sn w
  ∧ DealOn cb expect ctx di sn w = DealOn cb expect' ctx di sn w.
Proof.
  intros Hsame. split.
  - unfold DealState.
    assert (Hr : DealState_range (api.State di) expect
                 = DealState_range (api.State di) expect').
    { apply eq_true_iff_eq. rewrite !DealState_range_elem. apply Hsame. }
    by rewrite Hr.
  - unfold DealOn.
    destruct (decide (api.State di ∈ expect)) as [Hin|Hout].
    + rewrite !DealOn_range_elem; [done| |done]. by apply Hsame.
    + rewrite !DealOn_range_not_elem; [done| |done].
      intros Hin. apply Hout. by apply Hsame.
Qed.

End ListsAsSets.

(** ** The scan stops at the first containing sector *)

Section ScanBreak.
Context {W : Type}.
Variable env : Env W.
Variable ctx : context.Context.

Lemma sloop_events id (sl : list abi.SectorNumber) : ∀ ms (w : W),
  events (sloop env ctx id sl ms w) = [].
Proof.
  induction sl as [|s sl IH]; intros ms w; [reflexivity|]. simpl.
  rewrite bind_call.
  destruct (SectorsStatus env ctx s false w) as [[si|e] w1];
    cbv beta iota delta [fst snd];
    [rewrite bind_require_Ok | by rewrite bind_require_Err].
  destruct (dealsRange (api.Deals si) id); [reflexivity|apply IH].
Qed.

Lemma sloop_app_miss (pre : list abi.SectorNumber) rest (w : W) status id ms :
  statusTable env ctx pre w status →
  (∀ s, s ∈ pre → id ∉ api.Deals (status s)) →
  sloop env ctx id (pre ++ rest) ms w = sloop env ctx id rest ms w.
Proof.
  induction pre as [|p pre IH]; intros Ht Hmiss; [reflexivity|].
  simpl app. rewrite (sloop_step_miss env ctx _ w status).
  - apply IH; [intros s Hs; apply Ht; by right|].
    intros s Hs. apply Hmiss. by right.
  - apply Ht. left.
  - apply Hmiss. left.
Qed.

(** X5: the scan never looks past the first listed sector that holds
    the deal, so a later sector whose status cannot be fetched does not
    disturb it; a sector whose status cannot be fetched before any holder
    is found stops the test with the query's error. *)
Theorem sloop_stops_at_first_holder (pre post : list abi.SectorNumber)
    s (w : W) status id :
  statusTable env ctx pre w status →
  (∀ s', s' ∈ pre → id ∉ api.Deals (status s')) →
  (∀ si, SectorsStatus env ctx s false w = (Ok si, w) →
     id ∈ api.Deals si →
     sloop env ctx id (pre ++ s :: post) 0%N w = mkRes (Ret s) w [])
  ∧ (∀ e w',
       SectorsStatus env ctx s false w = (Err e, w') →
       sloop env ctx id (pre ++ s :: post) 0%N w
         = mkRes (FailNow (NoErrorFailed e)) w' []).
Proof.
  intros Ht Hmiss. split.
  - intros si Hq Hin.
    rewrite (sloop_app_miss pre _ w status) by done.
    simpl. rewrite bind_call, Hq. cbv beta iota delta [fst snd].
    rewrite bind_require_Ok. apply dealsRange_elem in Hin. by rewrite Hin.
  - intros e w' Hq.
    rewrite (sloop_app_miss pre _ w status) by done.
    simpl. rewrite bind_call, Hq. reflexivity.
Qed.

End ScanBreak.

(** ** Evaluations that stop the test *)

Section Failures.
Context {W : Type}.
Variable env : Env W.
Variable ctx : context.Context.
Variable stateChecks : list (DealStateCheck W).
Implicit Types (w : W) (todo : gset cid.Cid) (deal : cid.Cid).

Lemma rangeBody_split todo deal w :
  rangeBody env ctx stateChecks todo deal w
    = bind (snapshot env ctx deal) (judge ctx stateChecks todo deal) w.
Proof.
  unfold snapshot, rangeBody. symmetry.
  do 7 (rewrite bind_assoc; apply bind_ext; [reflexivity|]; intros ? ?).
  by rewrite bind_ret_l.
Qed.

Lemma snapshot_queryFails deal w e w' :
  queryFails env ctx deal w e w' →
  snapshot env ctx deal w = mkRes (FailNow (NoErrorFailed e)) w' [].
Proof.
  intros H. unfold snapshot.
  destruct H as [H1|di w1 H1 H2|di w1 mds w2 H1 H2 H3
                 |di w1 mds w2 sl w3 H1 H2 H3 Ho Hw];
    rewrite bind_call, H1; cbv beta iota delta [fst snd];
    [reflexivity|rewrite bind_require_Ok..];
    rewrite bind_call, H2; cbv beta iota delta [fst snd];
    [reflexivity|rewrite bind_require_Ok..];
    rewrite bind_call, H3; cbv beta iota delta [fst snd];
    [reflexivity|rewrite bind_require_Ok].
  pose proof (sloop_events env ctx (api.DealID di) sl 0%N w3) as He.
  destruct (sloop env ctx (api.DealID di) sl 0%N w3) as [o wz ez] eqn:Hs.
  simpl in *. subst.
  by rewrite (bind_FailNow _ _ _ _ _ _ Hs).
Qed.

Lemma waitLoop_stops_in_pass fuel todo w (kpre kpost : list cid.Cid) deal
    todo1 w1 e1 f w2 e2 :
  deal ∈ todo →
  mapRange env todo w = kpre ++ deal :: kpost →
  rangeTodo env ctx stateChecks kpre todo w = mkRes (Ret todo1) w1 e1 →
  rangeBody env ctx stateChecks todo1 deal w1 = mkRes (FailNow f) w2 e2 →
  waitLoop env (S fuel) ctx stateChecks todo w
    = mkRes (FailNow f) w2 (e1 ++ e2).
Proof.
  intros Hin Hkeys Hpre Hbody.
  assert (Hsz : (0 < size todo)%nat).
  { destruct (decide (0 < size todo)%nat) as [|Hz]; [done|].
    assert (todo = ∅) as -> by (apply leibniz_equiv, size_empty_iff; lia).
    set_solver. }
  assert (Hpass : rangeTodo env ctx stateChecks (mapRange env todo w) todo w
                  = mkRes (FailNow f) w2 (e1 ++ e2)).
  { rewrite Hkeys, (rangeTodo_app _ _ _ _ _ _ _ _ _ _ Hpre). simpl.
    rewrite (bind_FailNow _ _ _ _ _ _ Hbody). reflexivity. }
  destruct (waitLoop_pass_stop env ctx stateChecks fuel _ _ _ _ _ Hsz Hpass)
    as [_ Hf]; [discriminate|].
  by apply Hf.
Qed.

(** X3: a query that answers with an error while an identity is being
    evaluated (the client's deal info, the miner's incomplete deals, its
    sector listing, or a sector status during the scan) stops the whole
    wait with that error, in that pass: no check is run for the identity,
    nothing more is logged, nothing is retried and there is no sleep. *)
Theorem query_error_stops_wait fuel todo w (kpre kpost : list cid.Cid) deal
    todo1 w1 e1 e w2 :
  deal ∈ todo →
  mapRange env todo w = kpre ++ deal :: kpost →
  rangeTodo env ctx stateChecks kpre todo w = mkRes (Ret todo1) w1 e1 →
  queryFails env ctx deal w1 e w2 →
  waitLoop env (S fuel) ctx stateChecks todo w
    = mkRes (FailNow (reported (TransportError e))) w2 e1.
Proof.
  intros Hin Hkeys Hpre Hq.
  rewrite (waitLoop_stops_in_pass fuel todo w kpre kpost deal todo1 w1 e1
             (NoErrorFailed e) w2 [] Hin Hkeys Hpre).
  - by rewrite app_nil_r.
  - rewrite rangeBody_split.
    by rewrite (bind_FailNow _ _ _ _ _ _ (snapshot_queryFails _ _ _ _ Hq)).
Qed.

(** X4: when a check stops the test during an evaluation (a state check
    on a fatal state, a sector check whose status query fails, a callback
    that fails), the checks before it having answered true, the whole
    wait stops with that failure in that pass: the checks after it and the
    identities after this one are not evaluated, and there is no sleep. *)
Theorem failing_check_stops_wait fuel todo w (kpre kpost : list cid.Cid) deal
    todo1 w1 e1 di mds ms w2 e2
    (cpre cpost : list (DealStateCheck W)) (check : DealStateCheck W)
    w3 e3 f w4 e4 :
  deal ∈ todo →
  mapRange env todo w = kpre ++ deal :: kpost →
  rangeTodo env ctx stateChecks kpre todo w = mkRes (Ret todo1) w1 e1 →
  snapshot env ctx deal w1 = mkRes (Ret (di, mds, ms)) w2 e2 →
  stateChecks = cpre ++ check :: cpost →
  checksRange ctx di ms cpre w2 = mkRes (Ret true) w3 e3 →
  check ctx di ms w3 = mkRes (FailNow f) w4 e4 →
  waitLoop env (S fuel) ctx stateChecks todo w
    = mkRes (FailNow f) w4 (e1 ++ e2 ++ e3 ++ e4).
Proof.
  intros Hin Hkeys Hpre Hsnap Hchecks Hcpre Hcheck.
  apply (waitLoop_stops_in_pass fuel todo w kpre kpost deal todo1 w1 e1
           f w4 (e2 ++ e3 ++ e4) Hin Hkeys Hpre).
  apply (rangeBody_FailNow env ctx stateChecks todo1 deal w1 di mds ms
           w2 e2 f w4 (e3 ++ e4) Hsnap).
  rewrite Hchecks, (checksRange_app ctx _ _ _ _ _ _ _ Hcpre).
  by rewrite (checksRange_FailNow_head ctx _ _ _ _ _ _ _ _ Hcheck).
Qed.

(** X6: the conjunction is cut short at the first check that answers
    false.  The checks after it are not run (a callback among them does
    not fire), so the result, the world and the log are those of the
    checks up to it, whatever follows in the list. *)
Theorem checks_stop_at_first_false
    (cpre cpost : list (DealStateCheck W)) (check : DealStateCheck W)
    di ms w w1 e1 w2 e2 :
  checksRange ctx di ms cpre w = mkRes (Ret true) w1 e1 →
  check ctx di ms w1 = mkRes (Ret false) w2 e2 →
  checksRange ctx di ms (cpre ++ check :: cpost) w
    = mkRes (Ret false) w2 (e1 ++ e2).
Proof.
  intros Hpre Hcheck.
  rewrite (checksRange_app ctx _ _ _ _ _ _ _ Hpre). simpl.
  rewrite (bind_Ret_eq _ _ _ _ _ _ (Ret false) w2 [] Hcheck eq_refl).
  unfold prepend. simpl. by rewrite app_nil_r.
Qed.

End Failures.

(** ** What a pass does to the pending set *)

Section Completion.
Context {W : Type}.
Variable env : Env W.
Variable ctx : context.Context.
Variable stateChecks : list (DealStateCheck W).
Implicit Types (w : W) (todo : gset cid.Cid) (deal : cid.Cid).

Lemma DealState_true_elem (expect : list StorageDealStatus) ctx' di sn w :
  outcome (DealState (W := W) expect ctx' di sn w) = Ret true →
  api.State di ∈ expect.
Proof.
  unfold DealState.
  destruct (DealState_range (api.State di) expect) eqn:E.
  - intros _. by apply DealState_range_elem.
  - destruct (api.State di); simpl; discriminate.
Qed.

Lemma checksRange_true (checks : list (DealStateCheck W)) di ms :
  ∀ w w' e,
  checksRange ctx di ms checks w = mkRes (Ret true) w' e →
  ∀ check, check ∈ checks → ∃ w1, outcome (check ctx di ms w1) = Ret true.
Proof.
  induction checks as [|c checks IH]; intros w w' e H check Hin.
  - by apply elem_of_nil in Hin.
  - simpl in H.
    destruct (c ctx di ms w) as [[b|f|] wa ea] eqn:Hc.
    + rewrite (bind_Ret _ _ _ _ _ _ Hc) in H.
      destruct b; simpl in H; [|discriminate].
      apply elem_of_cons in Hin as [->|Hin].
      * exists w. by rewrite Hc.
      * destruct (checksRange ctx di ms checks wa) as [o wb eb] eqn:E.
        simpl in H. injection H as -> <- <-. by eapply IH.
    + rewrite (bind_FailNow _ _ _ _ _ _ Hc) in H. discriminate.
    + rewrite (bind_NoReturn _ _ _ _ _ Hc) in H. discriminate.
Qed.

Lemma rangeBody_cases todo deal w todo' w' e :
  rangeBody env ctx stateChecks todo deal w = mkRes (Ret todo') w' e →
  ∃ di mds ms w1 e1 (b : bool) e2,
    snapshot env ctx deal w = mkRes (Ret (di, mds, ms)) w1 e1
    ∧ checksRange ctx di ms stateChecks w1 = mkRes (Ret b) w' e2
    ∧ todo' = (if b then todo ∖ {[deal]} else todo)
    ∧ e = e1 ++ e2 ++ verdictLog di mds b.
Proof.
  intros H.
  destruct (snapshot env ctx deal w) as [[[[di mds] ms]|f|] w1 e1] eqn:Hs.
  - destruct (checksRange ctx di ms stateChecks w1) as [[b|f|] w2 e2] eqn:Hc.
    + rewrite (rangeBody_Ret env ctx stateChecks todo deal w
                 _ _ _ _ _ _ _ _ Hs Hc) in H.
      injection H as <- <- <-. by exists di, mds, ms, w1, e1, b, e2.
    + rewrite (rangeBody_FailNow env ctx stateChecks todo deal w
                 _ _ _ _ _ _ _ _ Hs Hc) in H. discriminate.
    + rewrite (rangeBody_checks env ctx stateChecks todo deal w
                 _ _ _ _ _ Hs) in H.
      rewrite (bind_NoReturn _ _ _ _ _ Hc) in H. discriminate.
  - rewrite rangeBody_split, (bind_FailNow _ _ _ _ _ _ Hs) in H.
    discriminate.
  - rewrite rangeBody_split, (bind_NoReturn _ _ _ _ _ Hs) in H.
    discriminate.
Qed.

Lemma rangeBody_removed todo deal w todo' w' e :
  rangeBody env ctx stateChecks todo deal w = mkRes (Ret todo') w' e →
  todo' ⊆ todo
  ∧ (todo' ≠ todo →
     todo' = todo ∖ {[deal]}
     ∧ ∃ di, LogWaitComplete di ∈ e ∧ accepted stateChecks di).
Proof.
  intros H.
  destruct (rangeBody_cases _ _ _ _ _ _ H)
    as (di & mds & ms & w1 & e1 & b & e2 & Hs & Hc & -> & ->).
  destruct b; [|split; [done|by intros []]].
  split; [set_solver|]. intros _. split; [done|]. exists di. split.
  - unfold verdictLog. rewrite !elem_of_app. right. right. left. left.
  - intros expect Hin.
    destruct (checksRange_true _ _ _ _ _ _ Hc _ Hin) as [wx Hx].
    by eapply DealState_true_elem.
Qed.

Lemma rangeTodo_removed (keys : list cid.Cid) : ∀ todo w todo' w' e,
  rangeTodo env ctx stateChecks keys todo w = mkRes (Ret todo') w' e →
  todo' ⊆ todo
  ∧ (∀ d, d ∈ todo → d ∉ todo' → d ∈ keys)
  ∧ (todo' ≠ todo → ∃ di, LogWaitComplete di ∈ e ∧ accepted stateChecks di).
Proof.
  induction keys as [|k keys IH]; intros todo w todo' w' e H.
  - injection H as <- <- <-. split; [done|]. split; [done|]. by intros [].
  - rewrite rangeTodo_cons in H.
    destruct (rangeBody env ctx stateChecks todo k w)
      as [[todo1|f|] w1 e1] eqn:Hb.
    + rewrite (bind_Ret _ _ _ _ _ _ Hb) in H.
      destruct (rangeTodo env ctx stateChecks keys todo1 w1)
        as [o w2 e2] eqn:Hr.
      simpl in H. injection H as -> <- <-.
      destruct (rangeBody_removed _ _ _ _ _ _ Hb) as [Hsub1 Hrem1].
      destruct (IH _ _ _ _ _ Hr) as (Hsub2 & Hkeys2 & Hrem2).
      split; [set_solver|]. split.
      * intros d Hd Hnot. apply elem_of_cons.
        destruct (decide (d ∈ todo1)) as [Hd1|Hd1].
        -- right. by apply Hkeys2.
        -- assert (todo1 ≠ todo) as Hne by (intros ->; done).
           destruct (Hrem1 Hne) as [Heq _]. left.
           destruct (decide (d = k)) as [|Hdk]; [done|].
           destruct Hd1. rewrite Heq. apply elem_of_difference.
           split; [done|]. by rewrite elem_of_singleton.
      * intros Hne. destruct (decide (todo1 = todo)) as [->|Hne1].
        -- destruct (Hrem2 Hne) as (di & Hdi & Hacc).
           exists di. split; [|done]. apply elem_of_app. by right.
        -- destruct (Hrem1 Hne1) as (_ & di & Hdi & Hacc).
           exists di. split; [|done]. apply elem_of_app. by left.
    + rewrite (bind_FailNow _ _ _ _ _ _ Hb) in H. discriminate.
    + rewrite (bind_NoReturn _ _ _ _ _ Hb) in H. discriminate.
Qed.

Lemma waitLoop_removed fuel : ∀ todo w,
  todo ≠ ∅ →
  outcome (waitLoop env fuel ctx stateChecks todo w) = Ret tt →
  ∃ di, LogWaitComplete di ∈ events (waitLoop env fuel ctx stateChecks todo w)
        ∧ accepted stateChecks di.
Proof.
  induction fuel as [|fuel IH]; intros todo w Hne Hret.
  - rewrite waitLoop_0_pending in Hret by done. discriminate.
  - assert (Hsz : (0 < size todo)%nat).
    { destruct (decide (0 < size todo)%nat) as [|Hz]; [done|].
      destruct Hne. apply leibniz_equiv, size_empty_iff. lia. }
    destruct (rangeTodo env ctx stateChecks (mapRange env todo w) todo w)
      as [[todo'|f|] w1 e1] eqn:Hp.
    + rewrite (waitLoop_pass_Ret env ctx stateChecks fuel _ _ _ _ _ Hsz Hp)
        in *.
      unfold prepend in *. simpl in *.
      destruct (rangeTodo_removed _ _ _ _ _ _ Hp) as (_ & _ & Hrem).
      destruct (decide (todo' = todo)) as [->|Hne'].
      * destruct (IH _ _ Hne Hret) as (di & Hdi & Hacc).
        exists di. split; [|done]. rewrite !elem_of_app. by right.
      * destruct (Hrem Hne') as (di & Hdi & Hacc).
        exists di. split; [|done]. rewrite !elem_of_app. left. by left.
    + destruct (waitLoop_pass_stop env ctx stateChecks fuel _ _ _ _ _ Hsz Hp)
        as [Hn _]; [discriminate|]. by destruct Hn.
    + destruct (waitLoop_pass_stop env ctx stateChecks fuel _ _ _ _ _ Hsz Hp)
        as [Hn _]; [discriminate|]. by destruct Hn.
Qed.

(** X2: a pass never adds an identity to the pending set, and an
    identity leaves it only if the pass visited it; and whenever the set
    changed, a "Wait complete" line was logged for a snapshot that every
    supplied [DealState] check accepted. *)
Theorem pass_only_removes_completed (keys : list cid.Cid) todo w todo' w' e :
  rangeTodo env ctx stateChecks keys todo w = mkRes (Ret todo') w' e →
  todo' ⊆ todo
  ∧ (∀ d, d ∈ todo → d ∉ todo' → d ∈ keys)
  ∧ (todo' ≠ todo →
     ∃ di, LogWaitComplete di ∈ e
           ∧ ∀ expect, DealState expect ∈ stateChecks →
                       api.State di ∈ expect).
Proof. apply rangeTodo_removed. Qed.

(** X8: a wait over a non-empty list that returns has logged "Wait
    complete" for a snapshot whose state lies in the acceptance set of
    every [DealState] check it was given: it never returns on the
    strength of rejected states only. *)
Theorem WaitDealStates_returns_on_accepted_state fuel
    (deals : list cid.Cid) w :
  deals ≠ [] →
  outcome (WaitDealStates env fuel ctx deals stateChecks w) = Ret tt →
  ∃ di,
    LogWaitComplete di
      ∈ events (WaitDealStates env fuel ctx deals stateChecks w)
    ∧ ∀ expect, DealState expect ∈ stateChecks → api.State di ∈ expect.
Proof.
  intros Hne. rewrite WaitDealStates_waitLoop. apply waitLoop_removed.
  destruct deals as [|d deals]; [done|]. set_solver.
Qed.

End Completion.

Section Sealed.
Context {W : Type}.
Variable env : Env W.
Variable ctx : context.Context.

(** X9: [WaitDealSealed] returns only after a pass has seen the deal in
    state Active, whatever [noseal] and [noSealStart] are: [noseal] adds a
    first wait for AwaitingPreCommit, Sealing or Active, and the wait for
    Active follows it all the same. *)
Theorem WaitDealSealed_returns_on_Active fuel deal
    (noseal noSealStart : bool) (w : W) :
  outcome (WaitDealSealed env fuel ctx deal noseal noSealStart w) = Ret tt →
  ∃ di,
    LogWaitComplete di
      ∈ events (WaitDealSealed env fuel ctx deal noseal noSealStart w)
    ∧ api.State di = StorageDealActive.
Proof.
  unfold WaitDealSealed. intros Hret.
  set (first := if noseal
                then WaitDealStates env fuel ctx [deal]
                       [DealState [StorageDealAwaitingPreCommit;
                                   StorageDealSealing; StorageDealActive]]
                else ret tt) in *.
  set (checks :=
         (if noSealStart
          then [] ++ [DealOn (StartSealingWaiting env ctx)
                        [StorageDealAwaitingPreCommit; StorageDealSealing]]
          else []) ++ [DealState [StorageDealActive]]) in *.
  destruct (first w) as [[[]|f|] w1 e1] eqn:Hfirst.
  - rewrite (bind_Ret _ _ _ _ _ _ Hfirst) in *. simpl in *.
    rewrite WaitDealStates_waitLoop in *.
    destruct (waitLoop_removed env ctx checks fuel (list_to_set [deal]) w1)
      as (di & Hdi & Hacc); [set_solver|done|]. unfold accepted in Hacc.
    exists di. split; [apply elem_of_app; by right|].
    assert (Hin : DealState (W := W) [StorageDealActive] ∈ checks).
    { unfold checks. apply elem_of_app. right. left. }
    specialize (Hacc _ Hin). by apply list_elem_of_singleton in Hacc.
  - rewrite (bind_FailNow _ _ _ _ _ _ Hfirst) in Hret. discriminate.
  - rewrite (bind_NoReturn _ _ _ _ _ Hfirst) in Hret. discriminate.
Qed.

End Sealed.

(** ** A wait without checks *)

Section NoChecks.
Context {W : Type}.
Variable env : Env W.
Variable ctx : context.Context.
Variable deals : list cid.Cid.
Variable Inv : W → Prop.

(** X10: with no checks at all every identity is done as soon as its
    snapshot has been fetched, whatever state the deal is in (a fatal one
    included): when the queries succeed the wait returns after a single
    pass. *)
Theorem WaitDealStates_without_checks fuel w0 :
  rangeVisitsEachKeyOnce env →
  deals ≠ [] →
  Inv w0 →
  (∀ d w, d ∈ deals → Inv w →
     ∃ s w' e, snapshot env ctx d w = mkRes (Ret s) w' e ∧ Inv w') →
  outcome (WaitDealStates env (S fuel) ctx deals [] w0) = Ret tt
  ∧ outcome (WaitDealStates env 0 ctx deals [] w0) = NoReturn.
Proof.
  intros Hrange Hne Hw0 Hsnap.
  assert (Hnonempty : (list_to_set deals : gset cid.Cid) ≠ ∅).
  { destruct deals as [|d ds]; [done|]. set_solver. }
  rewrite !WaitDealStates_waitLoop. split.
  - destruct (waitLoop_passes env ctx [] deals Hrange
                (λ i w, i = 0%nat → Inv w) (λ _ _, true) 1)
      with (k := 1%nat) (i := 0%nat)
           (todo := (list_to_set deals : gset cid.Cid)) (w := w0)
      as (w' & e & _ & Hl).
    + intros i d w todo Hi Hd Hw. assert (i = 0)%nat as -> by lia.
      destruct (Hsnap d w Hd (Hw eq_refl))
        as ([[di mds] ms] & w1 & e1 & Hs & Hw1).
      exists w1, (e1 ++ [] ++ verdictLog di mds true). split; [|done].
      by rewrite (rangeBody_Ret env ctx [] todo d w di mds ms w1 e1
                    true w1 [] Hs eq_refl).
    + intros i w Hi Hw. discriminate.
    + lia.
    + done.
    + done.
    + intros j Hj. assert (j = 0)%nat as -> by lia.
      by rewrite pendingAfter_0.
    + change (S fuel) with (1 + fuel)%nat. rewrite Hl.
      assert (pendingAfter (λ _ _, true) 0 1 (list_to_set deals) = ∅) as ->.
      { apply set_eq. intros d. unfold pendingAfter.
        rewrite elem_of_filter. simpl. set_solver. }
      by rewrite waitLoop_empty.
  - by rewrite waitLoop_0_pending.
Qed.

End NoChecks.

(** ** How a wait for publication can end *)

Section PublishedOutcomes.
Context {W : Type}.
Variable env : Env W.
Variables (ctx : context.Context) (deal : cid.Cid).
Implicit Types (w : W).




End PublishedOutcomes.

(** ** The sealing calls of [StartSealingWaiting] *)

Section SealingCalls.
Variable m : Ledger.Miner.
Variable ctx : context.Context.
Variable st : abi.SectorNumber → api.SectorInfo.
Implicit Types (w : Ledger.World) (sl : list abi.SectorNumber).

Lemma bind_t_Log {A} ev (k : unit → M Ledger.World A) w :
  bind (t_Log ev) k w = prepend [ev] (k tt w).
Proof. reflexivity. Qed.

Lemma snumsRange_status s sl w :
  snumsRange (Ledger.env m) ctx (s :: sl) w
  = (si <- require_NoError (Ledger.status m s) ;;
     t_Log (LogSectorState (api.si_State si)) ;;;
     (if bool_decide (api.si_State si = sealing.WaitDeals)
      then r <- call (SectorStartSealing (Ledger.env m) ctx s) ;;
           require_NoError r
      else ret tt) ;;;
     (λ w, mkRes (Ret tt) (FlushSealingBatches (Ledger.env m) ctx w) []) ;;;
     snumsRange (Ledger.env m) ctx sl) w.
Proof. simpl snumsRange. by rewrite bind_call. Qed.

Lemma start_sealing_Ok s w :
  Ledger.start m s = Ok tt →
  (r <- call (SectorStartSealing (Ledger.env m) ctx s) ;;
   require_NoError r) w
  = mkRes (Ret tt) (w ++ [Ledger.CallStart s]) [].
Proof.
  intros Hstart. rewrite bind_call. simpl SectorStartSealing.
  cbv beta iota delta [fst snd]. by rewrite Hstart.
Qed.

Lemma start_sealing_Err s w e :
  Ledger.start m s = Err e →
  (r <- call (SectorStartSealing (Ledger.env m) ctx s) ;;
   require_NoError r) w
  = mkRes (FailNow (NoErrorFailed e)) (w ++ [Ledger.CallStart s]) [].
Proof.
  intros Hstart. rewrite bind_call. simpl SectorStartSealing.
  cbv beta iota delta [fst snd]. by rewrite Hstart.
Qed.

Lemma flush_Ret w :
  (λ w, mkRes (Ret tt) (FlushSealingBatches (Ledger.env m) ctx w) []) w
  = mkRes (Ret tt) (w ++ [Ledger.CallFlush]) ([] : list Event).
Proof. reflexivity. Qed.

Lemma snumsRange_step s sl w :
  Ledger.status m s = Ok (st s) →
  (Ledger.stateOf st s = sealing.WaitDeals → Ledger.start m s = Ok tt) →
  snumsRange (Ledger.env m) ctx (s :: sl) w
  = prepend [LogSectorState (Ledger.stateOf st s)]
      (snumsRange (Ledger.env m) ctx sl
         (w ++ Ledger.sealingCalls (Ledger.stateOf st) [s])).
Proof.
  intros Hstatus Hstart. rewrite snumsRange_status, Hstatus.
  rewrite bind_require_Ok, bind_t_Log. f_equal.
  unfold Ledger.sealingCalls. simpl flat_map. rewrite app_nil_r.
  fold (Ledger.stateOf st s). case_bool_decide as Hwait.
  - rewrite (bind_Ret _ _ _ _ _ _ (start_sealing_Ok s w (Hstart Hwait))).
    rewrite (bind_Ret _ _ _ _ _ _ (flush_Ret (w ++ [Ledger.CallStart s]))).
    simpl. rewrite <- app_assoc. symmetry. apply res_eta.
  - rewrite bind_ret_l.
    rewrite (bind_Ret _ _ _ _ _ _ (flush_Ret w)).
    simpl. symmetry. apply res_eta.
Qed.

Lemma sealingCalls_app (f : abi.SectorNumber → api.SectorState) sl sl' :
  Ledger.sealingCalls f (sl ++ sl')
  = Ledger.sealingCalls f sl ++ Ledger.sealingCalls f sl'.
Proof. unfold Ledger.sealingCalls. apply flat_map_app. Qed.

Lemma snumsRange_app (pre : list abi.SectorNumber) : ∀ rest w,
  Ledger.answers m st pre →
  snumsRange (Ledger.env m) ctx (pre ++ rest) w
  = prepend (sectorLogs (Ledger.stateOf st) pre)
      (snumsRange (Ledger.env m) ctx rest
         (w ++ Ledger.sealingCalls (Ledger.stateOf st) pre)).
Proof.
  induction pre as [|s pre IH]; intros rest w Hans.
  - simpl. rewrite app_nil_r. unfold prepend. simpl. apply res_eta.
  - destruct (Hans s) as [Hstatus Hstart]; [left|].
    simpl app. rewrite (snumsRange_step _ _ _ Hstatus Hstart).
    rewrite IH by (intros s' Hs'; apply Hans; by right).
    unfold prepend, sectorLogs, Ledger.sealingCalls. simpl.
    rewrite app_nil_r, <- !app_assoc. reflexivity.
Qed.

Lemma StartSealingWaiting_calls_aux sl w :
  Ledger.listing m = Ok sl →
  Ledger.answers m st sl →
  StartSealingWaiting (Ledger.env m) ctx w
  = mkRes (Ret tt) (w ++ Ledger.sealingCalls (Ledger.stateOf st) sl)
      (sectorLogs (Ledger.stateOf st) sl).
Proof.
  intros Hlist Hans. unfold StartSealingWaiting.
  rewrite bind_call. simpl SectorsList. cbv beta iota delta [fst snd].
  rewrite Hlist, bind_require_Ok.
  rewrite <- (app_nil_r sl) at 1. rewrite (snumsRange_app sl [] w Hans).
  unfold prepend. simpl. by rewrite app_nil_r.
Qed.

(** X12: with a miner that answers, one run of [StartSealingWaiting]
    goes through the listed sectors in order, logs the state of each,
    starts sealing exactly those in state WaitDeals, and flushes the
    sealing batches once after every sector (so never, when no sector is
    listed). *)
Theorem StartSealingWaiting_calls sl w :
  Ledger.listing m = Ok sl →
  Ledger.answers m st sl →
  StartSealingWaiting (Ledger.env m) ctx w
  = mkRes (Ret tt) (w ++ Ledger.sealingCalls (Ledger.stateOf st) sl)
      (sectorLogs (Ledger.stateOf st) sl).
Proof. apply StartSealingWaiting_calls_aux. Qed.

(** X13: a run of [StartSealingWaiting] stops the test at the first
    sector whose status cannot be fetched, or that waits for deals and
    cannot be started.  The sectors before it have been handled; for the
    failing one nothing is flushed, and the sectors after it are not
    touched.  When the listing itself fails no call is made. *)
Theorem StartSealingWaiting_stops_at_failure
    (pre post : list abi.SectorNumber) s w e :
  Ledger.answers m st pre →
  (Ledger.listing m = Err e →
   StartSealingWaiting (Ledger.env m) ctx w
   = mkRes (FailNow (NoErrorFailed e)) w [])
  ∧ (Ledger.listing m = Ok (pre ++ s :: post) →
     Ledger.status m s = Err e →
     StartSealingWaiting (Ledger.env m) ctx w
     = mkRes (FailNow (NoErrorFailed e))
         (w ++ Ledger.sealingCalls (Ledger.stateOf st) pre) (sectorLogs (Ledger.stateOf st) pre))
  ∧ (Ledger.listing m = Ok (pre ++ s :: post) →
     Ledger.status m s = Ok (st s) →
     Ledger.stateOf st s = sealing.WaitDeals →
     Ledger.start m s = Err e →
     StartSealingWaiting (Ledger.env m) ctx w
     = mkRes (FailNow (NoErrorFailed e))
         (w ++ Ledger.sealingCalls (Ledger.stateOf st) pre ++ [Ledger.CallStart s])
         (sectorLogs (Ledger.stateOf st) pre ++ [LogSectorState sealing.WaitDeals])).
Proof.
  intros Hans. unfold StartSealingWaiting.
  rewrite bind_call. simpl SectorsList. cbv beta iota delta [fst snd].
  split; [|split].
  - intros ->. reflexivity.
  - intros -> Hstatus. rewrite bind_require_Ok, (snumsRange_app pre _ w Hans).
    rewrite snumsRange_status, Hstatus, bind_require_Err.
    unfold prepend. simpl. by rewrite app_nil_r.
  - intros -> Hstatus Hwait Hstart.
    rewrite bind_require_Ok, (snumsRange_app pre _ w Hans).
    rewrite snumsRange_status, Hstatus, bind_require_Ok, bind_t_Log.
    fold (Ledger.stateOf st s). rewrite Hwait.
    rewrite bool_decide_eq_true_2 by done.
    rewrite (bind_FailNow _ _ _ _ _ _ (start_sealing_Err s _ e Hstart)).
    unfold prepend. simpl. by rewrite <- app_assoc.
Qed.



End SealingCalls.

(** ** Further concrete runs *)

Lemma pass_only_removes_completed_witness :
  ∃ di,
    LogWaitComplete di
      ∈ [LogWaitComplete (di_of "D1" StorageDealActive "" 7%N);
         LogDealState 7%N StorageDealActive StorageDealUnknown;
         LogSectorState "callback";
         LogDealState 7%N StorageDealSealing StorageDealUnknown]
    ∧ ∀ expect, DealState expect ∈ checksSealingThenActive →
                api.State di ∈ expect.
Proof.
  refine (proj2 (proj2 (pass_only_removes_completed (Fixture.env fxTwo) ctx0
            checksSealingThenActive ["D1"; "D2"] (list_to_set ["D1"; "D2"])
            (Fixture.mkWorld 1 [] []) (list_to_set ["D2"])
            (Fixture.mkWorld 1 [] []) _ _)) _).
  - vm_compute. reflexivity.
  - intros H.
    assert (Hin : "D1" ∈ (list_to_set ["D2"] : gset cid.Cid)).
    { rewrite H. apply elem_of_list_to_set. left. }
    apply elem_of_list_to_set, list_elem_of_singleton in Hin. discriminate Hin.
Defined.

Lemma query_error_stops_wait_witness :
  waitLoop (Fixture.env fxNoClient) 1 ctx0 checksSealingThenActive
    (list_to_set ["D1"]) Fixture.start
  = mkRes (FailNow (NoErrorFailed "connection refused")) Fixture.start [].
Proof.
  refine (query_error_stops_wait (Fixture.env fxNoClient) ctx0
            checksSealingThenActive 0 (list_to_set ["D1"]) Fixture.start
            [] [] "D1" (list_to_set ["D1"]) Fixture.start []
            "connection refused" Fixture.start _ _ eq_refl _).
  - apply elem_of_list_to_set. left.
  - vm_compute. reflexivity.
  - apply fails_deal_info. reflexivity.
Defined.

Lemma failing_check_stops_wait_witness :
  waitLoop (Fixture.env fxMixed) 1 ctx0
    [DealOn failingCallback [StorageDealSealing];
     DealState [StorageDealActive]]
    (list_to_set ["D1"]) Fixture.start
  = mkRes (FailNow (Fatal ["sealing failed"])) Fixture.start [].
Proof.
  refine (failing_check_stops_wait (Fixture.env fxMixed) ctx0 _ 0
            (list_to_set ["D1"]) Fixture.start [] [] "D1"
            (list_to_set ["D1"]) Fixture.start []
            (di_of "D1" StorageDealSealing "" 7%N) [] 0%N Fixture.start []
            [] [DealState [StorageDealActive]]
            (DealOn failingCallback [StorageDealSealing])
            Fixture.start [] (Fatal ["sealing failed"]) Fixture.start []
            _ _ eq_refl _ eq_refl eq_refl _).
  - apply elem_of_list_to_set. left.
  - vm_compute. reflexivity.
  - vm_compute. reflexivity.
  - vm_compute. reflexivity.
Defined.

Lemma sloop_stops_at_first_holder_witness :
  sloop (Fixture.env fxBrokenSector) ctx0 9%N [2%N; 3%N] 0%N Fixture.start
  = mkRes (Ret 2%N) Fixture.start [].
Proof.
  refine (proj1 (sloop_stops_at_first_holder (Fixture.env fxBrokenSector)
            ctx0 [] [3%N] 2%N Fixture.start statusSectors 9%N _ _)
            (si_of 2%N "Proving" [5%N; 9%N]) eq_refl _).
  - intros s Hs. by apply elem_of_nil in Hs.
  - intros s Hs. by apply elem_of_nil in Hs.
  - right. left.
Defined.

Lemma checks_stop_at_first_false_witness :
  checksRange ctx0 (di_of "D1" StorageDealSealing "" 7%N) 0%N
    [DealState [StorageDealActive];
     DealOn logCallback [StorageDealSealing]] Fixture.start
  = mkRes (Ret false) Fixture.start [].
Proof.
  exact (checks_stop_at_first_false ctx0 []
           [DealOn logCallback [StorageDealSealing]]
           (DealState [StorageDealActive])
           (di_of "D1" StorageDealSealing "" 7%N) 0%N
           Fixture.start Fixture.start [] Fixture.start []
           eq_refl eq_refl).
Defined.

Lemma state_lists_are_sets_witness :
  DealState (W := Fixture.World)
    [StorageDealSealing; StorageDealActive; StorageDealSealing] ctx0
    (di_of "D1" StorageDealError "insufficient funds" 9%N) 0%N Fixture.start
  = DealState [StorageDealActive; StorageDealSealing] ctx0
      (di_of "D1" StorageDealError "insufficient funds" 9%N) 0%N
      Fixture.start.
Proof.
  refine (proj1 (state_lists_are_sets (W := Fixture.World)
            [StorageDealSealing; StorageDealActive; StorageDealSealing]
            [StorageDealActive; StorageDealSealing] logCallback ctx0
            (di_of "D1" StorageDealError "insufficient funds" 9%N) 0%N
            Fixture.start _)).
  intros st. rewrite !elem_of_cons. tauto.
Defined.

Lemma WaitDealStates_returns_on_accepted_state_witness :
  ∃ di,
    LogWaitComplete di
      ∈ events (WaitDealStates (Fixture.env fxTwo) 3 ctx0 ["D1"; "D2"]
                  checksSealingThenActive Fixture.start)
    ∧ ∀ expect, DealState expect ∈ checksSealingThenActive →
                api.State di ∈ expect.
Proof.
  apply (WaitDealStates_returns_on_accepted_state (Fixture.env fxTwo) ctx0
           checksSealingThenActive 3 ["D1"; "D2"] Fixture.start).
  - discriminate.
  - vm_compute. reflexivity.
Defined.

Lemma WaitDealSealed_returns_on_Active_witness :
  ∃ di,
    LogWaitComplete di
      ∈ events (WaitDealSealed (Fixture.env fxSealing) 3 ctx0 "D1"
                  true false Fixture.start)
    ∧ api.State di = StorageDealActive.
Proof.
  apply (WaitDealSealed_returns_on_Active (Fixture.env fxSealing) ctx0 3
           "D1" true false Fixture.start).
  vm_compute. reflexivity.
Defined.

Lemma WaitDealStates_without_checks_witness :
  outcome (WaitDealStates (Fixture.env fxError) 1 ctx0 ["D2"] []
             Fixture.start) = Ret tt.
Proof.
  refine (proj1 (WaitDealStates_without_checks (Fixture.env fxError) ctx0
            ["D2"] (λ _, True) 0 Fixture.start (fixture_range fxError)
            _ I _)).
  - discriminate.
  - intros d w _ _.
    exists (di_of d StorageDealError "insufficient funds" 9%N, [], 0%N), w, [].
    split; [reflexivity|exact I].
Defined.


Lemma answers_minerWaiting :
  Ledger.answers minerWaiting statesWaiting [1%N; 2%N; 4%N].
Proof. intros s _. split; reflexivity. Qed.

Lemma StartSealingWaiting_calls_witness :
  StartSealingWaiting (Ledger.env minerWaiting) ctx0 []
  = mkRes (Ret tt)
      [Ledger.CallStart 1%N; Ledger.CallFlush; Ledger.CallFlush;
       Ledger.CallStart 4%N; Ledger.CallFlush]
      [LogSectorState sealing.WaitDeals; LogSectorState "Proving";
       LogSectorState sealing.WaitDeals].
Proof.
  exact (StartSealingWaiting_calls minerWaiting ctx0 statesWaiting
           [1%N; 2%N; 4%N] [] eq_refl answers_minerWaiting).
Defined.

Lemma StartSealingWaiting_stops_at_failure_witness :
  StartSealingWaiting (Ledger.env minerBroken) ctx0 []
  = mkRes (FailNow (NoErrorFailed "sector not found"))
      [Ledger.CallStart 1%N; Ledger.CallFlush]
      [LogSectorState sealing.WaitDeals].
Proof.
  refine (proj1 (proj2 (StartSealingWaiting_stops_at_failure minerBroken ctx0
            statesWaiting [1%N] [4%N] 2%N [] "sector not found" _))
            eq_refl eq_refl).
  intros s Hs. apply list_elem_of_singleton in Hs as ->. split; reflexivity.
Defined.


(** C4, refuted as stated.  Context 0 has been cancelled before the wait
    begins, so its signal has fired before any classification: with
    nothing to receive the wait stops with "context timeout".  With an
    update for the deal ready as well, the select may take the update,
    and the wait returns normally. *)
Lemma cancelled_context_update_wins :
  ctx0 ∈ Fixture.cancelled racingWorld
  ∧ outcome (WaitDealPublished (Fixture.env fxSectors) 3 ctx0 "D1"
               cancelledWorld) = FailNow (reported Timeout)
  ∧ WaitDealPublished (Fixture.env fxSectors) 3 ctx0 "D1" racingWorld
    = mkRes (Ret tt) (Fixture.mkWorld 0 [] [1%nat; 0%nat])
        [LogComplete (md_of "D1" StorageDealSealing)].
Proof.
  split; [left|]. split; vm_compute; reflexivity.
Qed.
